(** * Special migrations: version gate, registry and the events-sample-by migration

    Shallow embedding of
      - posthog/special_migrations/manager.py
      - posthog/special_migrations/migrations/events_sample_by_migration.py

    Python dictionaries are [gmap]s, Python sets are [gset]s, the Django table
    of migration records is a list of rows, exceptions are an explicit error
    type threaded through the code, and floats are IEEE binary64 values
    ([spec_float] at precision 53).  The semantic_version library is an
    interface: the gate is defined, and its theorems are proved, for every
    implementation of it. *)

From Stdlib Require Import String Ascii NArith ZArith Lia SpecFloat.
From stdpp Require Import gmap strings list sorting.

Local Open Scope string_scope.
Local Open Scope list_scope.
Local Set Warnings "-clear-no-such-hyp".

(** ** Exceptions and outcomes *)

Inductive exn : Type :=
  | ImproperlyConfigured (msg : string)
  | ValueError
  | KeyError
  | MultipleObjectsReturned
  | IndexError
  | ZeroDivisionError
  | OverflowError
  | ServerException.

Inductive result (A : Type) : Type :=
  | Ok (a : A)
  | Raise (e : exn).
Arguments Ok {A} a.
Arguments Raise {A} e.

(** The value a Python call hands back to its caller. *)
Inductive pyvalue : Type :=
  | PyNone
  | PyList (names : list string).

(** ** Strings *)

(** [mentions needle hay]: [needle] occurs in [hay] (Python's [needle in hay]). *)
Fixpoint mentions (needle hay : string) : bool :=
  String.prefix needle hay ||
  match hay with
  | EmptyString => false
  | String _ rest => mentions needle rest
  end.

(** ** The semantic_version library, as manager.py uses it

    [Version(s)] and [SimpleSpec(expression)] answer [None] where the library
    raises ValueError; [Version_gt a b] is [a > b] and [spec_contains spec v]
    is [v in spec]. *)
Class VersionLibrary : Type := {
  Version : Type;
  Version_parse : string → option Version;
  Version_gt : Version → Version → bool;
  Spec : Type;
  SimpleSpec : string → option Spec;
  spec_contains : Spec → Version → bool
}.

(** ** Data model *)

(** The fields of a migration definition that the version gate reads
    (posthog.special_migrations.definition.SpecialMigrationDefinition). *)
Record SpecialMigrationDefinition : Type := mkDefinition {
  description : string;
  posthog_min_version : string;
  posthog_max_version : string;
  service_version_requirements : list (string * string)
}.

Inductive MigrationStatus : Type :=
  | NotStarted
  | Running
  | CompletedSuccessfully
  | Errored
  | RolledBack
  | Starting.

Global Instance MigrationStatus_eq_dec : EqDecision MigrationStatus.
Proof. solve_decision. Defined.

(** Modelled from the spec: the SpecialMigration Django model
    (posthog.models.special_migration), one row of the record store with the
    fields of the spec's Migration Record. *)
Record SpecialMigration : Type := mkRecord {
  name : string;
  status : MigrationStatus;
  current_operation_index : N;
  progress_pct : N;
  last_error : option string;
  started_at : option N;
  finished_at : option N
}.

(** Modelled from the spec: the row that [objects.create(name=...)] inserts,
    a NotStarted record with every other field at its default. *)
Definition new_record (n : string) : SpecialMigration :=
  mkRecord n NotStarted 0 0 None None None.

(** The record store: the rows of the SpecialMigration table, oldest first. *)
Abbreviation store := (list SpecialMigration).

Definition names_of (db : store) : list string := map name db.

Definition is_completed (r : SpecialMigration) : bool :=
  bool_decide (status r = CompletedSuccessfully).

(** Modelled from the spec: get_all_completed_special_migrations
    (posthog.models.special_migration), the records whose status is
    CompletedSuccessfully. *)
Definition get_all_completed_special_migrations (db : store) : store :=
  List.filter is_completed db.

Definition has_name (n : string) (r : SpecialMigration) : bool :=
  String.eqb (name r) n.

(** Django's [objects.get_or_create(name=n)]: the single matching row if
    there is one, a freshly inserted row if there is none, and
    MultipleObjectsReturned if several rows match.  The result is the new
    table, the row and the [created] flag. *)
Definition get_or_create (db : store) (n : string)
  : result (store * SpecialMigration * bool) :=
  match List.filter (has_name n) db with
  | [] => Ok ((db ++ [new_record n]), new_record n, true)
  | [r] => Ok (db, r, false)
  | _ :: _ :: _ => Raise MultipleObjectsReturned
  end.

(** ** manager.py, module level *)

Record manager `{VersionLibrary} : Type := mkManager {
  ALL_SPECIAL_MIGRATIONS : gmap string SpecialMigrationDefinition;
  VERSION : string;
  POSTHOG_VERSION : Version
}.

(** Lines 9-13: the loop over [import_submodules(...).items()], given as the
    list of (name, definition) pairs it iterates over. *)
Definition load_registry (DEBUG : bool)
    (submodules : list (string * SpecialMigrationDefinition))
  : gmap string SpecialMigrationDefinition :=
  foldl (fun acc nm =>
           if negb (String.eqb (fst nm) "example") || DEBUG
           then <[fst nm := snd nm]> acc
           else acc)
        ∅ submodules.


(** ** manager.py, init_special_migrations *)

(** Python's [sorted] on a set of strings. *)
Definition sorted (s : gset string) : list string :=
  merge_sort String.le (elements s).

Definition error_message (migration_name version : string) : string :=
  "Migration " +:+ migration_name
    +:+ " is required for PostHog versions above " +:+ version +:+ ".".

Definition applied_migrations (db : store) : gset string :=
  list_to_set (names_of (get_all_completed_special_migrations db)).

Section Gate.

Context `{VersionLibrary}.
Variable M : manager.

Definition unapplied_migrations (db : store) : gset string :=
  dom (ALL_SPECIAL_MIGRATIONS M) ∖ applied_migrations db.

(** Lines 25-30: one iteration of the loop.  [Ok db'] continues with the
    next name; every exception is raised before the table is touched. *)
Definition gate_body (migration_name : string) (db : store) : result store :=
  match ALL_SPECIAL_MIGRATIONS M !! migration_name with
  | None => Raise KeyError
  | Some migration =>
      match Version_parse (posthog_max_version migration) with
      | None => Raise ValueError
      | Some vmax =>
          if Version_gt (POSTHOG_VERSION M) vmax
          then Raise (ImproperlyConfigured
                        (error_message migration_name (VERSION M)))
          else
            match SimpleSpec (">=" +:+ posthog_min_version migration
                                +:+ ",<=" +:+ posthog_max_version migration) with
            | None => Raise ValueError
            | Some spec =>
                if spec_contains spec (POSTHOG_VERSION M)
                then match get_or_create db migration_name with
                     | Ok (db', _, _) => Ok db'
                     | Raise e => Raise e
                     end
                else Ok db
            end
      end
  end.

(** Line 24: the [for] loop; an exception leaves the table as the earlier
    iterations made it. *)
Fixpoint gate_loop (todo : list string) (db : store) : store * result pyvalue :=
  match todo with
  | [] => (db, Ok PyNone)
  | migration_name :: rest =>
      match gate_body migration_name db with
      | Ok db' => gate_loop rest db'
      | Raise e => (db, Raise e)
      end
  end.

(** Lines 19-30.  The function has no [return]: it hands back [None]. *)
Definition init_special_migrations (db : store) : store * result pyvalue :=
  gate_loop (sorted (unapplied_migrations db)) db.

End Gate.

(** ** IEEE binary64 arithmetic *)

Definition prec64 : Z := 53.
Definition emax64 : Z := 1024.

(** Conversion of an unsigned integer to Float64, rounding to nearest even
    (ClickHouse's implicit conversion, Python's [float(n)]). *)
Definition Float64_of_N (n : N) : spec_float :=
  binary_normalize prec64 emax64 (Z.of_N n) 0 false.

(** The literals [1.5] and [100.0]. *)
Definition float64_1_5 : spec_float := binary_normalize prec64 emax64 3 (-1) false.
Definition float64_100 : spec_float := Float64_of_N 100.

(** ClickHouse's [a / b] on unsigned integers: both sides become Float64 and
    are divided; a zero divisor gives infinity or NaN. *)
Definition ch_div (a b : N) : spec_float :=
  SFdiv prec64 emax64 (Float64_of_N a) (Float64_of_N b).

(** Python's [x < c] on floats: false when either side is NaN. *)
Definition float_lt (x c : spec_float) : bool := SFltb x c.

(** An integer as the exact operand of a correctly rounded division. *)
Definition int_as_float (n : N) : spec_float :=
  match n with
  | N0 => S754_zero false
  | Npos p => S754_finite false p 0
  end.

(** Python's [a / b] on integers: the exact quotient rounded once to the
    nearest binary64 value; ZeroDivisionError for a zero divisor and
    OverflowError when the quotient is beyond the float range. *)
Definition py_truediv (a b : N) : result spec_float :=
  if (b =? 0)%N then Raise ZeroDivisionError
  else match SFdiv prec64 emax64 (int_as_float a) (int_as_float b) with
       | S754_infinity _ => Raise OverflowError
       | q => Ok q
       end.

(** A float that is a zero, a finite number or an infinity of sign [s]; with
    [s = false], a float that is neither negative nor NaN. *)
Definition signed (s : bool) (x : spec_float) : Prop :=
  x = S754_zero s ∨ (∃ m e, x = S754_finite s m e) ∨ x = S754_infinity s.

(** ** ClickHouse, as far as the migration's queries read it *)

Record disk : Type := mkDisk {
  disk_name : string;
  free_space : N;
  total_space : N
}.

Record part : Type := mkPart {
  part_table : string;
  part_bytes : N
}.

Record ClickHouse : Type := mkClickHouse {
  tables : gmap string N;      (* existing tables and their row counts *)
  system_parts : list part;    (* system.parts *)
  system_disks : list disk     (* system.disks *)
}.

(** [SELECT COUNT(1) FROM table]: the server reports a missing table. *)
Definition count_rows (ch : ClickHouse) (table : string) : result N :=
  match tables ch !! table with
  | Some n => Ok n
  | None => Raise ServerException
  end.

(** [sum(bytes) FROM system.parts WHERE table = t]: one row, 0 without parts. *)
Definition table_size (ch : ClickHouse) (t : string) : N :=
  foldr N.add 0%N
        (map part_bytes
             (List.filter (fun p => String.eqb (part_table p) t) (system_parts ch))).

(** [FROM system.disks WHERE name = d]. *)
Definition disks_named (ch : ClickHouse) (d : string) : list disk :=
  List.filter (fun k => String.eqb (disk_name k) d) (system_disks ch).

(** ** migrations/events_sample_by_migration.py *)

Module EventsSampleBy.

Definition TEMPORARY_TABLE_NAME : string := "temp_events".

Definition Migration : SpecialMigrationDefinition :=
  mkDefinition "Events table migration for compatible sample by column."
               "1.30.0" "1.31.0"
               [("clickhouse", ">=21.6.0,<21.7.0")].

Definition storage_message (required_space : string) : string :=
  "Upgrade your ClickHouse storage to at least " +:+ required_space +:+ ".".

Section Queries.

(** ee.clickhouse.sql.events.EVENTS_TABLE and ClickHouse's
    formatReadableSize are not part of the migration's file. *)
Variable EVENTS_TABLE : string.
Variable formatReadableSize : spec_float → string.

(** First query of [healthcheck]: a row per disk called default, holding
    free_space / sum(bytes). *)
Definition free_to_events_ratio (ch : ClickHouse) : list spec_float :=
  map (fun k => ch_div (free_space k) (table_size ch "sharded_events"))
      (disks_named ch "default").

(** The Float64 [total_space - (free_space - 1.5 * sum(bytes))]. *)
Definition required_bytes (k : disk) (size : N) : spec_float :=
  SFsub prec64 emax64 (Float64_of_N (total_space k))
    (SFsub prec64 emax64 (Float64_of_N (free_space k))
       (SFmul prec64 emax64 float64_1_5 (Float64_of_N size))).

(** Second query of [healthcheck]: that amount, made readable. *)
Definition required_storage (ch : ClickHouse) : list string :=
  map (fun k => formatReadableSize (required_bytes k (table_size ch "sharded_events")))
      (disks_named ch "default").

Definition healthcheck (ch : ClickHouse) : result (bool * option string) :=
  match free_to_events_ratio ch with
  | [] => Raise IndexError
  | event_size_to_free_space_ratio :: _ =>
      if float_lt event_size_to_free_space_ratio float64_1_5
      then Ok (true, None)
      else
        match required_storage ch with
        | [] => Raise IndexError
        | required_space :: _ =>
            Ok (false, Some (storage_message required_space))
        end
  end.

(** [progress(self, _)]: the record is not read. *)
Definition progress (ch : ClickHouse) (_ : SpecialMigration) : result spec_float :=
  match count_rows ch TEMPORARY_TABLE_NAME with
  | Raise e => Raise e
  | Ok total_events_moved =>
      match count_rows ch EVENTS_TABLE with
      | Raise e => Raise e
      | Ok total_events_to_move =>
          match py_truediv total_events_moved total_events_to_move with
          | Raise e => Raise e
          | Ok ratio => Ok (SFmul prec64 emax64 float64_100 ratio)
          end
      end
  end.

(** [SHOW CREATE TABLE table]: one row holding the statement the table was
    created with; the server reports a missing table. *)
Definition show_create_table (ddl : gmap string string) (table : string)
  : result (list (list string)) :=
  match ddl !! table with
  | Some statement => Ok [[statement]]
  | None => Raise ServerException
  end.

(** [is_required(self)]: [res[0][0]] of the statement, searched for the old
    sampling clause. *)
Definition is_required (ddl : gmap string string) : result bool :=
  match show_create_table ddl EVENTS_TABLE with
  | Raise e => Raise e
  | Ok res =>
      match res with
      | [] => Raise IndexError
      | row :: _ =>
          match row with
          | [] => Raise IndexError
          | statement :: _ => Ok (mentions "SAMPLE BY uuid" statement)
          end
      end
  end.

End Queries.

End EventsSampleBy.

(** ** Vocabulary of the version gate *)

(** The unique-name constraint of the record table. *)
Definition unique_names (db : store) : Prop := NoDup (names_of db).

Global Instance unique_names_dec db : Decision (unique_names db).
Proof. unfold unique_names. apply _. Defined.

(** At most one record of migration [n] is in the table. *)
Definition single_record (db : store) (n : string) : Prop :=
  (length (List.filter (has_name n) db) ≤ 1)%nat.

(** A record of migration [n] with the given status is in the table. *)
Definition has_status (db : store) (n : string) (s : MigrationStatus) : Prop :=
  ∃ r, r ∈ db ∧ name r = n ∧ status r = s.

Definition lacks_record (db : store) (n : string) : bool :=
  bool_decide (n ∉ names_of db).

(** After the call the table holds a fresh NotStarted row for [n] exactly
    when it held none before, and otherwise the rows it had. *)
Definition record_ensured (db db' : store) (n : string) : Prop :=
  List.filter (has_name n) db' =
  if lacks_record db n then [new_record n] else List.filter (has_name n) db.

(** The guard of line 12. *)
Definition registered (DEBUG : bool) (n : string) : bool :=
  negb (String.eqb n "example") || DEBUG.

(** What one iteration of the loop decides before it touches the table. *)
Inductive verdict : Type :=
  | Fatal (e : exn)
  | Applicable
  | Skip.

Section Vocabulary.

Context `{VersionLibrary}.

(** The expression of line 29. *)
Definition window_expression (m : SpecialMigrationDefinition) : string :=
  ">=" +:+ posthog_min_version m +:+ ",<=" +:+ posthog_max_version m.

(** [appVersion > max]: the upper bound is a version and the application
    version is above it. *)
Definition window_exceeded (v : Version) (m : SpecialMigrationDefinition) : bool :=
  match Version_parse (posthog_max_version m) with
  | Some hi => Version_gt v hi
  | None => false
  end.

(** [appVersion] within [[min, max]], both ends included: it satisfies the
    specification ">=min,<=max". *)
Definition in_window (v : Version) (m : SpecialMigrationDefinition) : bool :=
  match SimpleSpec (window_expression m) with
  | Some spec => spec_contains spec v
  | None => false
  end.

(** [appVersion < min]. *)
Definition below_window (v : Version) (m : SpecialMigrationDefinition) : bool :=
  match Version_parse (posthog_min_version m) with
  | Some lo => Version_gt lo v
  | None => false
  end.

Definition window_of (M : manager) (n : string) : bool :=
  match ALL_SPECIAL_MIGRATIONS M !! n with
  | Some m => in_window (POSTHOG_VERSION M) m
  | None => false
  end.

(** The spec's pending-applicable set, sorted by name: the incomplete
    migrations whose window contains the application version. *)
Definition pending_applicable (M : manager) (db : store) : list string :=
  List.filter (window_of M) (sorted (unapplied_migrations M db)).

Definition gate_verdict (M : manager) (migration_name : string) : verdict :=
  match ALL_SPECIAL_MIGRATIONS M !! migration_name with
  | None => Fatal KeyError
  | Some migration =>
      match Version_parse (posthog_max_version migration) with
      | None => Fatal ValueError
      | Some vmax =>
          if Version_gt (POSTHOG_VERSION M) vmax
          then Fatal (ImproperlyConfigured
                        (error_message migration_name (VERSION M)))
          else
            match SimpleSpec (window_expression migration) with
            | None => Fatal ValueError
            | Some spec =>
                if spec_contains spec (POSTHOG_VERSION M)
                then Applicable else Skip
            end
      end
  end.

(** The iteration for [n] reaches [get_or_create]: the upper bound is a
    version, the application version is not above it and lies in the window. *)
Definition code_applicable (M : manager) (n : string) : bool :=
  match gate_verdict M n with Applicable => true | _ => false end.

(** The iteration for [n] inserts a row. *)
Definition creates (M : manager) (db : store) (n : string) : bool :=
  code_applicable M n && lacks_record db n.

(** The version library accepts the bounds the iteration for [n] hands it:
    [Version(max)] is a version and, unless the application version is above
    it, the expression of line 29 is a specification. *)
Definition bounds_accepted (M : manager) (n : string) : Prop :=
  match ALL_SPECIAL_MIGRATIONS M !! n with
  | None => True
  | Some m =>
      match Version_parse (posthog_max_version m) with
      | None => False
      | Some hi =>
          Version_gt (POSTHOG_VERSION M) hi = true ∨
          is_Some (SimpleSpec (window_expression m))
      end
  end.

(** The iteration for [n] raises neither ValueError nor
    MultipleObjectsReturned. *)
Definition iteration_clean (M : manager) (db : store) (n : string) : Prop :=
  bounds_accepted M n ∧ (code_applicable M n = true → single_record db n).

(** The iteration for [n] raises nothing. *)
Definition iteration_completes (M : manager) (db : store) (n : string) : Prop :=
  gate_verdict M n = Skip ∨ (gate_verdict M n = Applicable ∧ single_record db n).

(** *** The gate's contract as the specification words it *)

(** Every incomplete migration whose window is over gets a fatal error that
    names it. *)
Definition every_missed_migration_is_named : Prop :=
  ∀ (M : manager) (db : store) n m,
    ALL_SPECIAL_MIGRATIONS M !! n = Some m →
    n ∈ unapplied_migrations M db →
    window_exceeded (POSTHOG_VERSION M) m = true →
    ∃ msg, snd (init_special_migrations M db) = Raise (ImproperlyConfigured msg) ∧
           mentions n msg = true.

(** The fatal error for a missed migration quotes its name and its upper
    bound. *)
Definition fatal_message_references_upper_bound : Prop :=
  ∀ (M : manager) (db : store) n m,
    ALL_SPECIAL_MIGRATIONS M !! n = Some m →
    window_exceeded (POSTHOG_VERSION M) m = true →
    snd (init_special_migrations M db)
      = Raise (ImproperlyConfigured (error_message n (VERSION M))) →
    mentions n (error_message n (VERSION M)) = true ∧
    mentions (posthog_max_version m) (error_message n (VERSION M)) = true.

(** The gate hands the sorted pending-applicable names back to its caller. *)
Definition gate_returns_pending_set : Prop :=
  ∀ (M : manager) (db db' : store) v,
    init_special_migrations M db = (db', Ok v) →
    v = PyList (pending_applicable M db).

(** Every incomplete migration in its window gets its record; every one
    below its window is ignored. *)
Definition applicable_or_ignored : Prop :=
  ∀ (M : manager) (db : store) n m,
    ALL_SPECIAL_MIGRATIONS M !! n = Some m →
    n ∈ unapplied_migrations M db →
    (in_window (POSTHOG_VERSION M) m = true →
       n ∈ pending_applicable M db ∧
       record_ensured db (fst (init_special_migrations M db)) n) ∧
    (below_window (POSTHOG_VERSION M) m = true →
       List.filter (has_name n) (fst (init_special_migrations M db))
         = List.filter (has_name n) db ∧
       (snd (init_special_migrations M db)
          ≠ Raise (ImproperlyConfigured (error_message n (VERSION M))))).


End Vocabulary.


(** ** The library on plain release versions

    A version library for the scenarios below.  It returns what
    semantic_version returns on version strings of the form
    MAJOR.MINOR.PATCH (three dot-separated decimal numbers without leading
    zeros), on comma-separated comparisons of such versions, and on strings
    that are no version at all, like "latest".  It knows no pre-release or
    build parts and no partial versions, and answers [None] on them where
    semantic_version may accept them; no scenario uses such a string.  The
    theorems about the gate are proved for every version library; this one
    only evaluates the scenarios. *)

Record release : Type := mkVersion { major : N; minor : N; patch : N }.

Definition is_digit (c : ascii) : bool :=
  let n := N_of_ascii c in (48 <=? n)%N && (n <=? 57)%N.

Fixpoint digits_value (acc : N) (s : string) : option N :=
  match s with
  | EmptyString => Some acc
  | String c rest =>
      if is_digit c
      then digits_value (10 * acc + (N_of_ascii c - 48))%N rest
      else None
  end.

Definition numeric_component (s : string) : option N :=
  match s with
  | EmptyString => None
  | String "0" (String _ _) => None
  | _ => digits_value 0 s
  end.

(** [split_on sep s] is Python's [s.split(sep)] for a one-character [sep]. *)
Fixpoint split_on (sep : ascii) (s : string) : list string :=
  match s with
  | EmptyString => [EmptyString]
  | String c rest =>
      if Ascii.eqb c sep then EmptyString :: split_on sep rest
      else match split_on sep rest with
           | [] => [String c EmptyString]
           | w :: ws => String c w :: ws
           end
  end.

Definition release_parse (s : string) : option release :=
  match split_on "." s with
  | [a; b; c] =>
      match numeric_component a, numeric_component b, numeric_component c with
      | Some x, Some y, Some z => Some (mkVersion x y z)
      | _, _, _ => None
      end
  | _ => None
  end.

Definition release_compare (a b : release) : comparison :=
  match (major a ?= major b)%N with
  | Eq => match (minor a ?= minor b)%N with
          | Eq => (patch a ?= patch b)%N
          | c => c
          end
  | c => c
  end.

Definition release_gt (a b : release) : bool :=
  match release_compare a b with Gt => true | _ => false end.
Definition release_ge (a b : release) : bool :=
  match release_compare a b with Lt => false | _ => true end.
Definition release_lt (a b : release) : bool := release_gt b a.
Definition release_le (a b : release) : bool := release_ge b a.
Definition release_eqb (a b : release) : bool :=
  match release_compare a b with Eq => true | _ => false end.

Inductive spec_op : Type := OpGe | OpLe | OpGt | OpLt | OpEq | OpNe.

Definition clause : Type := (spec_op * release)%type.

Definition clause_parse (s : string) : option clause :=
  match s with
  | String ">" (String "=" v) => pair OpGe <$> release_parse v
  | String "<" (String "=" v) => pair OpLe <$> release_parse v
  | String "=" (String "=" v) => pair OpEq <$> release_parse v
  | String "!" (String "=" v) => pair OpNe <$> release_parse v
  | String ">" v => pair OpGt <$> release_parse v
  | String "<" v => pair OpLt <$> release_parse v
  | _ => None
  end.

Definition release_spec (expression : string) : option (list clause) :=
  mapM clause_parse (split_on "," expression).

Definition clause_match (c : clause) (v : release) : bool :=
  match c with
  | (OpGe, t) => release_ge v t
  | (OpLe, t) => release_le v t
  | (OpGt, t) => release_gt v t
  | (OpLt, t) => release_lt v t
  | (OpEq, t) => release_eqb v t
  | (OpNe, t) => negb (release_eqb v t)
  end.

Definition release_contains (spec : list clause) (v : release) : bool :=
  forallb (fun c => clause_match c v) spec.

Definition release_versions : VersionLibrary :=
  {| Version := release;
     Version_parse := release_parse;
     Version_gt := release_gt;
     Spec := list clause;
     SimpleSpec := release_spec;
     spec_contains := release_contains |}.

(** ** Scenarios *)

Definition release_manager (submodules : list (string * SpecialMigrationDefinition))
    (version : string) (v : release) : @manager release_versions :=
  @mkManager release_versions (load_registry false submodules) version v.

Definition window_1_28 : SpecialMigrationDefinition :=
  mkDefinition "Valid from 1.28.0 to 1.29.0." "1.28.0" "1.29.0" [].

Definition window_1_40 : SpecialMigrationDefinition :=
  mkDefinition "Valid from 1.40.0 to 1.41.0." "1.40.0" "1.41.0" [].

Definition no_upper_bound : SpecialMigrationDefinition :=
  mkDefinition "No upper bound." "1.28.0" "latest" [].

(** Application 1.30.0; two migrations whose window is over. *)
Definition two_missed : @manager release_versions :=
  release_manager [("0001_first", window_1_28); ("0002_second", window_1_28)]
                  "1.30.0" (mkVersion 1 30 0).

(** The spec's scenario: window (1.30.0, 1.31.0), application 1.32.0. *)
Definition sample_by_at_1_32 : @manager release_versions :=
  release_manager [("events_sample_by_migration", EventsSampleBy.Migration)]
                  "1.32.0" (mkVersion 1 32 0).

(** Application 1.30.0; an applicable migration sorts before a missed one. *)
Definition applicable_then_missed : @manager release_versions :=
  release_manager [("0001_sample_by", EventsSampleBy.Migration);
                   ("0002_legacy", window_1_28)]
                  "1.30.0" (mkVersion 1 30 0).

(** Application 1.30.0; a missed migration sorts before an applicable one. *)
Definition missed_then_applicable : @manager release_versions :=
  release_manager [("0001_legacy", window_1_28);
                   ("0002_sample_by", EventsSampleBy.Migration)]
                  "1.30.0" (mkVersion 1 30 0).

(** Application 1.30.0; one applicable migration and one not yet applicable. *)
Definition applicable_and_future : @manager release_versions :=
  release_manager [("0001_sample_by", EventsSampleBy.Migration);
                   ("0002_future", window_1_40)]
                  "1.30.0" (mkVersion 1 30 0).

(** Application 1.30.0; a migration not yet applicable sorts before an
    applicable one. *)
Definition future_then_applicable : @manager release_versions :=
  release_manager [("0001_future", window_1_40);
                   ("0002_sample_by", EventsSampleBy.Migration)]
                  "1.30.0" (mkVersion 1 30 0).

(** Application 1.20.0, the same registry: nothing is applicable yet. *)
Definition nothing_applicable_yet : @manager release_versions :=
  release_manager [("0001_sample_by", EventsSampleBy.Migration);
                   ("0002_future", window_1_40)]
                  "1.20.0" (mkVersion 1 20 0).

(** Application 1.30.0; a definition whose bounds are the wrong way round. *)
Definition inverted_window : @manager release_versions :=
  release_manager [("0001_inverted",
                    mkDefinition "Bounds swapped." "1.40.0" "1.20.0" [])]
                  "1.30.0" (mkVersion 1 30 0).

(** Application 1.30.0; a definition whose upper bound is no version sorts
    before a missed migration. *)
Definition malformed_then_missed : @manager release_versions :=
  release_manager [("0001_broken", no_upper_bound); ("0002_legacy", window_1_28)]
                  "1.30.0" (mkVersion 1 30 0).

(** Application 1.30.0; a definition whose upper bound is no version sorts
    after a missed migration. *)
Definition missed_then_malformed : @manager release_versions :=
  release_manager [("0001_legacy", window_1_28); ("0002_broken", no_upper_bound)]
                  "1.30.0" (mkVersion 1 30 0).


(** Events table of 100 bytes, 300 bytes free of 1000: twice the room asked. *)
Definition ample_disk : ClickHouse :=
  mkClickHouse ∅ [mkPart "sharded_events" 100] [mkDisk "default" 300 1000].

(** Events table of 100 bytes, 100 bytes free of 1000: too little room. *)
Definition scarce_disk : ClickHouse :=
  mkClickHouse ∅ [mkPart "sharded_events" 100] [mkDisk "default" 100 1000].

(** No parts of the events table, 1000 bytes free of 1000. *)
Definition no_events_parts : ClickHouse :=
  mkClickHouse ∅ [] [mkDisk "default" 1000 1000].





Definition completed_record (n : string) : SpecialMigration :=
  mkRecord n CompletedSuccessfully 6 100 None (Some 1%N) (Some 2%N).


(** ** Strings: order and occurrence *)

Ltac by_compute := apply (bool_decide_unpack _); vm_compute; exact I.

Lemma string_ltb_le a b : String.ltb a b = true → String.le a b.
Proof. unfold String.ltb, String.le, String.leb. by destruct (String.compare a b). Qed.

Lemma string_ltb_not_ge a b : String.ltb a b = true → ¬ String.le b a.
Proof.
  unfold String.ltb, String.le, String.leb. rewrite (String.compare_antisym b a).
  destruct (String.compare a b); simpl; intros ? ?; done.
Qed.

Lemma append_cons (x : ascii) (a b : string) : String x a +:+ b = String x (a +:+ b).
Proof. reflexivity. Qed.

Lemma append_nil_l (b : string) : "" +:+ b = b.
Proof. reflexivity. Qed.

Lemma prefix_append (a b : string) : String.prefix a (a +:+ b) = true.
Proof.
  induction a as [|c a IH]; [by destruct b|].
  rewrite append_cons. simpl. destruct (ascii_dec c c); [done|congruence].
Qed.

Lemma mentions_unfold (needle hay : string) :
  mentions needle hay =
  String.prefix needle hay ||
  match hay with
  | EmptyString => false
  | String _ rest => mentions needle rest
  end.
Proof. by destruct hay. Qed.

Lemma mentions_here (a b : string) : mentions a (a +:+ b) = true.
Proof. by rewrite mentions_unfold, prefix_append. Qed.

Lemma mentions_append (p a b : string) : mentions a (p +:+ a +:+ b) = true.
Proof.
  induction p as [|c p IH].
  - exact (mentions_here a b).
  - change (String c p +:+ a +:+ b) with (String c (p +:+ a +:+ b)).
    rewrite mentions_unfold, IH. apply orb_true_r.
Qed.

Lemma append_assoc (a b c : string) : (a +:+ b) +:+ c = a +:+ b +:+ c.
Proof.
  induction a as [|x a IH]; [done|]. rewrite !append_cons. by rewrite IH.
Qed.

Lemma append_length (a b : string) :
  String.length (a +:+ b) = String.length a + String.length b.
Proof.
  induction a as [|x a IH]; [done|]. rewrite append_cons. simpl. by rewrite IH.
Qed.

Lemma append_inv_tail (a b s : string) : a +:+ s = b +:+ s → a = b.
Proof.
  revert b. induction a as [|x a IH]; intros [|y b] H;
    rewrite ?append_cons, ?append_nil_l in H.
  - done.
  - apply (f_equal String.length) in H. simpl in H.
    rewrite append_length in H. lia.
  - apply (f_equal String.length) in H. simpl in H.
    rewrite append_length in H. lia.
  - injection H as -> H. f_equal. by apply IH.
Qed.

Lemma error_message_inj n n' v : error_message n v = error_message n' v → n = n'.
Proof.
  unfold error_message. rewrite !append_cons, !append_nil_l.
  intros H. injection H as H. by apply append_inv_tail in H.
Qed.

Lemma error_message_mentions_name n v : mentions n (error_message n v) = true.
Proof. unfold error_message. apply mentions_append. Qed.

Lemma error_message_mentions_version n v : mentions v (error_message n v) = true.
Proof.
  unfold error_message.
  rewrite <- (append_assoc n), <- (append_assoc "Migration ").
  apply mentions_append.
Qed.

Lemma string_le_ne_ltb a b : String.le a b → a ≠ b → String.ltb a b = true.
Proof.
  unfold String.le, String.leb, String.ltb.
  destruct (String.compare a b) eqn:E; try done.
  apply String.compare_eq_iff in E. done.
Qed.

Lemma prefix_split (n h : string) :
  String.prefix n h = true → ∃ s, h = n +:+ s.
Proof.
  revert h. induction n as [|c n IH]; intros h; [by exists h|].
  destruct h as [|c' h]; simpl; [done|].
  destruct (ascii_dec c c') as [<-|]; [|done].
  intros [s ->]%IH. by exists s.
Qed.

(** [mentions] is the substring test. *)
Lemma mentions_spec (n h : string) :
  mentions n h = true ↔ ∃ p s, h = p +:+ n +:+ s.
Proof.
  split; [|intros (p & s & ->); apply mentions_append].
  induction h as [|c h IH]; rewrite mentions_unfold, orb_true_iff.
  - intros [Hp|?]; [|done]. apply prefix_split in Hp as [s ->]. by exists "", s.
  - intros [Hp|Hr].
    + apply prefix_split in Hp as [s ->]. by exists "", s.
    + destruct (IH Hr) as (p & s & ->). by exists (String c p), s.
Qed.

(** ** The record table *)

Lemma names_of_app (db1 db2 : store) :
  names_of (db1 ++ db2) = names_of db1 ++ names_of db2.
Proof. unfold names_of. apply map_app. Qed.

Lemma names_of_new (xs : list string) : names_of (map new_record xs) = xs.
Proof. unfold names_of. rewrite map_map. simpl. apply map_id. Qed.

Lemma filter_has_name_nil (db : store) n :
  List.filter (has_name n) db = [] ↔ n ∉ names_of db.
Proof.
  induction db as [|r db IH]; simpl.
  - split; [intros _; apply not_elem_of_nil|done].
  - unfold has_name at 1. rewrite not_elem_of_cons.
    destruct (String.eqb_spec (name r) n) as [->|Hne].
    + split; [done|]. intros [Hn _]. by destruct Hn.
    + rewrite IH. split; [intros ?; split; congruence|by intros [_ ?]].
Qed.

Lemma filter_has_name_new n (xs : list string) :
  n ∉ xs → List.filter (has_name n) (map new_record xs) = [].
Proof. intros H. apply filter_has_name_nil. by rewrite names_of_new. Qed.

Lemma lacks_record_true db n : lacks_record db n = true ↔ n ∉ names_of db.
Proof. unfold lacks_record. apply bool_decide_eq_true. Qed.

Lemma get_or_create_fresh db n :
  n ∉ names_of db →
  get_or_create db n = Ok (db ++ [new_record n], new_record n, true).
Proof.
  intros H. apply filter_has_name_nil in H. unfold get_or_create. by rewrite H.
Qed.

Lemma get_or_create_found db n r :
  List.filter (has_name n) db = [r] → get_or_create db n = Ok (db, r, false).
Proof. intros H. unfold get_or_create. by rewrite H. Qed.

(** A successful [get_or_create] appends the fresh row exactly when no row
    of that name exists, and leaves a single row of that name. *)
Lemma get_or_create_Ok db n db' r c :
  get_or_create db n = Ok (db', r, c) →
  db' = db ++ map new_record (if lacks_record db n then [n] else []) ∧
  List.filter (has_name n) db' = [r].
Proof.
  unfold get_or_create. destruct (List.filter (has_name n) db) as [|r0 [|]] eqn:E;
    intros [= <- <- <-].
  - pose proof (proj1 (filter_has_name_nil db n) E) as Hn.
    apply lacks_record_true in Hn. rewrite Hn. split; [done|].
    rewrite List.filter_app, E. simpl. unfold has_name. simpl.
    by rewrite String.eqb_refl.
  - assert (lacks_record db n = false) as ->.
    { apply not_true_is_false. rewrite lacks_record_true.
      rewrite <- filter_has_name_nil, E. done. }
    simpl. by rewrite app_nil_r.
Qed.

(** [get_or_create] reads the table only through the rows of that name. *)
Lemma get_or_create_raise_ext db D n e :
  List.filter (has_name n) D = List.filter (has_name n) db →
  get_or_create db n = Raise e → get_or_create D n = Raise e.
Proof.
  unfold get_or_create. intros ->.
  by destruct (List.filter (has_name n) db) as [|r0 [|]].
Qed.

Lemma filter_has_name_elem (db : store) n r :
  r ∈ List.filter (has_name n) db → name r = n.
Proof.
  intros Hr. apply list_elem_of_In, List.filter_In in Hr as [_ Hr].
  unfold has_name in Hr. by apply String.eqb_eq in Hr.
Qed.

Lemma filter_has_name_new_in n (xs : list string) :
  NoDup xs → n ∈ xs → List.filter (has_name n) (map new_record xs) = [new_record n].
Proof.
  induction 1 as [|x xs Hx Hnd IH]; [by intros ?%elem_of_nil|].
  intros [->|Hn]%elem_of_cons; simpl; unfold has_name at 1; simpl.
  - rewrite String.eqb_refl. f_equal. by apply filter_has_name_new.
  - destruct (String.eqb_spec x n) as [->|_]; [done|]. by apply IH.
Qed.

Lemma filter_singleton {A} (f : A → bool) (x : A) :
  List.filter f [x] = if f x then [x] else [].
Proof. done. Qed.

Lemma lacks_record_step (f : string → bool) db n x :
  x ≠ n →
  lacks_record (db ++ map new_record (List.filter f [n])) x = lacks_record db x.
Proof.
  intros Hne. unfold lacks_record. apply bool_decide_ext.
  rewrite names_of_app, names_of_new, filter_singleton.
  destruct (f n); set_solver.
Qed.

Lemma applied_migrations_new (db : store) (xs : list string) :
  applied_migrations (db ++ map new_record xs) = applied_migrations db.
Proof.
  unfold applied_migrations, get_all_completed_special_migrations.
  rewrite List.filter_app.
  assert (List.filter is_completed (map new_record xs) = []) as ->.
  { induction xs as [|x xs IH]; [done|]. simpl. exact IH. }
  by rewrite app_nil_r.
Qed.

Lemma filter_andb {A} (f g : A → bool) (l : list A) :
  List.filter (fun x => f x && g x) l = List.filter g (List.filter f l).
Proof.
  induction l as [|x l IH]; simpl; [done|].
  destruct (f x); simpl; [|done]. destruct (g x); by rewrite IH.
Qed.

Lemma StronglySorted_filter {A} (R : relation A) (f : A → bool) (l : list A) :
  StronglySorted R l → StronglySorted R (List.filter f l).
Proof.
  induction 1 as [|x l Hs IH Hall]; simpl; [constructor|].
  destruct (f x); [|done]. constructor; [done|].
  rewrite Forall_forall in Hall |- *. intros y Hy. apply Hall.
  apply list_elem_of_In in Hy. apply List.filter_In in Hy as [Hy _].
  by apply list_elem_of_In.
Qed.

Lemma filter_has_name_short (db : store) n :
  unique_names db → single_record db n.
Proof.
  unfold unique_names, single_record. induction db as [|r db IH]; simpl; [lia|].
  intros Hnd. apply NoDup_cons in Hnd as [Hr Hnd]. unfold has_name at 1.
  destruct (String.eqb_spec (name r) n) as [<-|Hne]; [|auto].
  apply filter_has_name_nil in Hr. rewrite Hr. simpl. lia.
Qed.

Lemma get_or_create_single db n :
  single_record db n → ∃ x, get_or_create db n = Ok x.
Proof.
  unfold single_record, get_or_create.
  destruct (List.filter (has_name n) db) as [|r0 [|]]; simpl; eauto; lia.
Qed.

Lemma get_or_create_raise db n e :
  get_or_create db n = Raise e → e = MultipleObjectsReturned ∧ ¬ single_record db n.
Proof.
  unfold single_record, get_or_create.
  destruct (List.filter (has_name n) db) as [|r0 [|]]; simpl; try done.
  intros [= <-]. split; [done|lia].
Qed.

(** ** The sorted work list *)

Lemma sorted_elem_of (s : gset string) n : n ∈ sorted s ↔ n ∈ s.
Proof. unfold sorted. by rewrite merge_sort_Permutation, elem_of_elements. Qed.

Lemma sorted_NoDup (s : gset string) : NoDup (sorted s).
Proof. unfold sorted. rewrite merge_sort_Permutation. apply NoDup_elements. Qed.

Lemma sorted_StronglySorted (s : gset string) : StronglySorted String.le (sorted s).
Proof. unfold sorted. apply StronglySorted_merge_sort; apply _. Qed.

(** In a sorted list everything after a position is no smaller. *)
Lemma StronglySorted_after (l1 l2 : list string) n x :
  StronglySorted String.le (l1 ++ n :: l2) → x ∈ n :: l2 → String.le n x.
Proof.
  intros Hs [->|Hx]%elem_of_cons; [done|].
  apply StronglySorted_app_1_r, StronglySorted_cons in Hs as [Hall _].
  rewrite Forall_forall in Hall. by apply Hall.
Qed.

Lemma sorted_empty : sorted ∅ = [].
Proof. unfold sorted. by rewrite elements_empty. Qed.

(** ** One iteration of the gate *)

Section GateProofs.

Context `{VersionLibrary}.

Lemma gate_body_verdict M n db :
  gate_body M n db =
  match gate_verdict M n with
  | Fatal e => Raise e
  | Applicable => match get_or_create db n with
                  | Ok (db', _, _) => Ok db'
                  | Raise e => Raise e
                  end
  | Skip => Ok db
  end.
Proof.
  unfold gate_body, gate_verdict, window_expression.
  destruct (ALL_SPECIAL_MIGRATIONS M !! n) as [m|]; [|done].
  destruct (Version_parse (posthog_max_version m)); [|done].
  destruct (Version_gt _ _); [done|].
  destruct (SimpleSpec _); [|done].
  by destruct (spec_contains _ _).
Qed.

Lemma gate_verdict_fatal_message M n msg :
  gate_verdict M n = Fatal (ImproperlyConfigured msg) →
  msg = error_message n (VERSION M) ∧
  ∃ m, ALL_SPECIAL_MIGRATIONS M !! n = Some m ∧
       window_exceeded (POSTHOG_VERSION M) m = true.
Proof.
  unfold gate_verdict, window_exceeded.
  destruct (ALL_SPECIAL_MIGRATIONS M !! n) as [m|]; [|done].
  destruct (Version_parse (posthog_max_version m)) eqn:Hp; [|done].
  destruct (Version_gt _ _) eqn:E.
  - intros [= <-]. split; [done|]. exists m. by rewrite Hp.
  - destruct (SimpleSpec _); [|done]. by destruct (spec_contains _ _).
Qed.

Lemma gate_body_fatal_message M n db msg :
  gate_body M n db = Raise (ImproperlyConfigured msg) →
  gate_verdict M n = Fatal (ImproperlyConfigured msg).
Proof.
  rewrite gate_body_verdict. destruct (gate_verdict M n) as [e| |]; try done.
  - by intros [= ->].
  - unfold get_or_create.
    destruct (List.filter (has_name n) db) as [|r0 [|]]; done.
Qed.

Lemma gate_verdict_exceeded M n m :
  ALL_SPECIAL_MIGRATIONS M !! n = Some m →
  window_exceeded (POSTHOG_VERSION M) m = true →
  gate_verdict M n = Fatal (ImproperlyConfigured (error_message n (VERSION M))).
Proof.
  unfold gate_verdict, window_exceeded. intros ->.
  destruct (Version_parse (posthog_max_version m)); [|done]. by intros ->.
Qed.

(** The verdict and the window test agree wherever the iteration is not
    fatal. *)
Lemma gate_verdict_window M n :
  (gate_verdict M n = Applicable → window_of M n = true) ∧
  (gate_verdict M n = Skip → window_of M n = false).
Proof.
  unfold gate_verdict, window_of, in_window.
  destruct (ALL_SPECIAL_MIGRATIONS M !! n) as [m|]; [|done].
  destruct (Version_parse (posthog_max_version m)); [|done].
  destruct (Version_gt _ _); [done|].
  destruct (SimpleSpec _); [|done].
  by destruct (spec_contains _ _).
Qed.

Lemma code_applicable_window M n :
  gate_verdict M n = Applicable ∨ gate_verdict M n = Skip →
  code_applicable M n = window_of M n.
Proof.
  unfold code_applicable. intros [Hv|Hv]; rewrite Hv; symmetry;
    by apply gate_verdict_window.
Qed.

Lemma code_applicable_not_exceeded M n m :
  ALL_SPECIAL_MIGRATIONS M !! n = Some m → code_applicable M n = true →
  window_exceeded (POSTHOG_VERSION M) m = false.
Proof.
  unfold code_applicable, gate_verdict, window_exceeded. intros ->.
  destruct (Version_parse (posthog_max_version m)); [|done].
  by destruct (Version_gt _ _).
Qed.

Lemma bounds_accepted_verdict M n m :
  ALL_SPECIAL_MIGRATIONS M !! n = Some m →
  bounds_accepted M n → gate_verdict M n ≠ Fatal ValueError.
Proof.
  unfold bounds_accepted, gate_verdict. intros ->.
  destruct (Version_parse (posthog_max_version m)); [|done].
  destruct (Version_gt _ _); [done|]. intros [?|[spec ->]]; [done|].
  by destruct (spec_contains _ _).
Qed.

(** The only exception a clean iteration can raise is the fatal error for a
    missed migration. *)
Lemma gate_body_raise_clean M n m (db : store) e :
  ALL_SPECIAL_MIGRATIONS M !! n = Some m → iteration_clean M db n →
  gate_body M n db = Raise e →
  window_exceeded (POSTHOG_VERSION M) m = true ∧
  e = ImproperlyConfigured (error_message n (VERSION M)).
Proof.
  intros Hn [Hb Hs]. pose proof (bounds_accepted_verdict _ _ _ Hn Hb) as Hv.
  rewrite gate_body_verdict. unfold code_applicable in Hs.
  destruct (gate_verdict M n) as [e'| |] eqn:E; [| |done].
  - intros [= ->]. destruct e; try done.
    + apply gate_verdict_fatal_message in E as [-> (m' & Hm' & Hex)].
      split; [congruence|done].
    + unfold gate_verdict in E. rewrite Hn in E.
      destruct (Version_parse (posthog_max_version m)); [|done].
      destruct (Version_gt _ _); [done|].
      destruct (SimpleSpec _); [|done]. by destruct (spec_contains _ _).
    + exfalso. unfold gate_verdict in E. rewrite Hn in E.
      destruct (Version_parse (posthog_max_version m)); [|done].
      destruct (Version_gt _ _); [done|].
      destruct (SimpleSpec _); [|done]. by destruct (spec_contains _ _).
    + exfalso. unfold gate_verdict in E. rewrite Hn in E.
      destruct (Version_parse (posthog_max_version m)); [|done].
      destruct (Version_gt _ _); [done|].
      destruct (SimpleSpec _); [|done]. by destruct (spec_contains _ _).
    + exfalso. unfold gate_verdict in E. rewrite Hn in E.
      destruct (Version_parse (posthog_max_version m)); [|done].
      destruct (Version_gt _ _); [done|].
      destruct (SimpleSpec _); [|done]. by destruct (spec_contains _ _).
    + exfalso. unfold gate_verdict in E. rewrite Hn in E.
      destruct (Version_parse (posthog_max_version m)); [|done].
      destruct (Version_gt _ _); [done|].
      destruct (SimpleSpec _); [|done]. by destruct (spec_contains _ _).
    + exfalso. unfold gate_verdict in E. rewrite Hn in E.
      destruct (Version_parse (posthog_max_version m)); [|done].
      destruct (Version_gt _ _); [done|].
      destruct (SimpleSpec _); [|done]. by destruct (spec_contains _ _).
  - by destruct (get_or_create_single db n (Hs eq_refl)) as [[[? ?] ?] ->].
Qed.

Lemma gate_body_Ok M n db db' :
  gate_body M n db = Ok db' →
  (gate_verdict M n = Applicable ∨ gate_verdict M n = Skip) ∧
  db' = db ++ map new_record (List.filter (creates M db) [n]) ∧
  (gate_verdict M n = Applicable → ∃ r, List.filter (has_name n) db' = [r]).
Proof.
  rewrite gate_body_verdict, filter_singleton. unfold creates, code_applicable.
  destruct (gate_verdict M n) as [e| |]; [done| |].
  - destruct (get_or_create db n) as [[[db1 r] c]|] eqn:E; [|done].
    intros [= <-]. apply get_or_create_Ok in E as [-> Hr].
    split; [by left|]. split; [|by eauto].
    simpl. by destruct (lacks_record db n).
  - intros [= <-]. split; [by right|]. split; [|done].
    simpl. by rewrite app_nil_r.
Qed.

(** The loop as a whole: it works through a prefix [done] of the names,
    appending a fresh row for each applicable name without one, and either
    finishes or stops at the first name whose iteration raises. *)
Lemma gate_loop_run M l : ∀ db db' out,
  NoDup l → gate_loop M l db = (db', out) →
  ∃ done rest,
    l = done ++ rest ∧
    db' = db ++ map new_record (List.filter (creates M db) done) ∧
    (∀ n, n ∈ done →
          gate_verdict M n = Applicable ∨ gate_verdict M n = Skip) ∧
    match out with
    | Ok v => v = PyNone ∧ rest = []
    | Raise e => ∃ n rest', rest = n :: rest' ∧ gate_body M n db' = Raise e
    end.
Proof.
  induction l as [|n l IH]; intros db db' out Hnd; simpl.
  - intros [= <- <-]. exists [], []. simpl. rewrite app_nil_r.
    repeat split; try done. intros n Hn. by apply elem_of_nil in Hn.
  - apply NoDup_cons in Hnd as [Hn Hnd].
    destruct (gate_body M n db) as [db1|e] eqn:Hbody.
    + intros Hloop. apply gate_body_Ok in Hbody as (Hv & -> & _).
      destruct (IH _ _ _ Hnd Hloop) as (done & rest & -> & -> & Hdone & Hout).
      exists (n :: done), rest. split; [done|]. split; [|split].
      * rewrite <- app_assoc, <- map_app. do 2 f_equal.
        change (n :: done) with ([n] ++ done). rewrite List.filter_app. f_equal.
        apply List.filter_ext_in. intros x Hx. unfold creates. f_equal.
        apply lacks_record_step. intros ->. apply Hn.
        apply elem_of_app. left. by apply list_elem_of_In.
      * intros x [->|Hx]%elem_of_cons; auto.
      * destruct out as [v|e]; [done|].
        destruct Hout as (x & rest' & -> & Hx). by exists x, rest'.
    + intros [= <- <-]. exists [], (n :: l). simpl. rewrite app_nil_r.
      repeat split; try done.
      * intros x Hx. by apply elem_of_nil in Hx.
      * by exists n, l.
Qed.

Lemma filter_has_name_created M db n (done : list string) :
  n ∉ done →
  List.filter (has_name n)
    (db ++ map new_record (List.filter (creates M db) done))
  = List.filter (has_name n) db.
Proof.
  intros Hn. rewrite List.filter_app, filter_has_name_new, app_nil_r; [done|].
  intros Hin. apply Hn. apply list_elem_of_In in Hin.
  apply List.filter_In in Hin as [Hin _]. by apply list_elem_of_In.
Qed.

(** Names the loop does not visit keep their rows. *)
Lemma gate_loop_other M l db db' out n :
  NoDup l → gate_loop M l db = (db', out) → n ∉ l →
  List.filter (has_name n) db' = List.filter (has_name n) db.
Proof.
  intros Hnd Hloop Hn.
  destruct (gate_loop_run _ _ _ _ _ Hnd Hloop) as (done & rest & -> & -> & _).
  apply filter_has_name_created. intros Hin. apply Hn, elem_of_app. by left.
Qed.

Lemma unapplied_lookup M db n :
  n ∈ unapplied_migrations M db → ∃ m, ALL_SPECIAL_MIGRATIONS M !! n = Some m.
Proof.
  unfold unapplied_migrations. intros [Hn _]%elem_of_difference.
  by apply elem_of_dom in Hn.
Qed.

Lemma gate_body_rerun M n db db1 D :
  gate_body M n db = Ok db1 →
  List.filter (has_name n) D = List.filter (has_name n) db1 →
  gate_body M n D = Ok D.
Proof.
  intros Hbody HD. apply gate_body_Ok in Hbody as (Hv & _ & Hr).
  rewrite gate_body_verdict. destruct Hv as [Hv|Hv]; rewrite Hv; [|done].
  destruct (Hr Hv) as [r Hr']. rewrite <- HD in Hr'.
  by rewrite (get_or_create_found _ _ _ Hr').
Qed.

Lemma gate_body_raise_ext M n db D e :
  List.filter (has_name n) D = List.filter (has_name n) db →
  gate_body M n db = Raise e → gate_body M n D = Raise e.
Proof.
  intros HD. rewrite !gate_body_verdict.
  destruct (gate_verdict M n); [done| |done].
  destruct (get_or_create db n) as [[[? ?] ?]|e'] eqn:E; [done|].
  intros [= ->]. by rewrite (get_or_create_raise_ext _ _ _ _ HD E).
Qed.

Lemma gate_loop_rerun M l : ∀ db db' out D,
  NoDup l → gate_loop M l db = (db', out) →
  (∀ n, n ∈ l → List.filter (has_name n) D = List.filter (has_name n) db') →
  gate_loop M l D = (D, out).
Proof.
  induction l as [|n l IH]; intros db db' out D Hnd; simpl.
  - by intros [= <- <-] _.
  - apply NoDup_cons in Hnd as [Hn Hnd].
    destruct (gate_body M n db) as [db1|e] eqn:Hbody.
    + intros Hloop HD.
      rewrite (gate_body_rerun _ _ _ _ D Hbody).
      * apply (IH db1 db'); [done..|]. intros x Hx. apply HD. by right.
      * rewrite (HD n); [|by left]. by apply (gate_loop_other M l db1 db' out).
    + intros [= <- <-] HD.
      rewrite (gate_body_raise_ext _ _ _ D _ (HD n ltac:(by left)) Hbody). done.
Qed.

Lemma created_NoDup M db (done : list string) :
  NoDup done → NoDup (List.filter (creates M db) done).
Proof.
  induction 1 as [|x l Hx Hnd IH]; simpl; [constructor|].
  destruct (creates M db x); [|done]. constructor; [|done].
  intros Hin. apply Hx. apply list_elem_of_In in Hin.
  apply List.filter_In in Hin as [Hin _]. by apply list_elem_of_In.
Qed.

Lemma created_fresh M db (done : list string) n :
  n ∈ List.filter (creates M db) done → n ∉ names_of db.
Proof.
  intros Hin. apply list_elem_of_In, List.filter_In in Hin as [_ Hc].
  unfold creates in Hc. apply andb_true_iff in Hc as [_ Hc].
  by apply lacks_record_true.
Qed.

Lemma created_unique_names M db (done : list string) :
  NoDup done → unique_names db →
  unique_names (db ++ map new_record (List.filter (creates M db) done)).
Proof.
  unfold unique_names. intros Hnd Hdb.
  rewrite names_of_app, names_of_new. apply NoDup_app. split; [done|].
  split; [|by apply created_NoDup].
  intros x Hx Hc. by apply created_fresh in Hc.
Qed.

(** Where the loop stops with the fatal error: at a missed migration, with
    every name before it passed. *)
Lemma gate_loop_fatal M (db db' : store) msg :
  init_special_migrations M db = (db', Raise (ImproperlyConfigured msg)) →
  ∃ done n rest m,
    sorted (unapplied_migrations M db) = done ++ n :: rest ∧
    db' = db ++ map new_record (List.filter (creates M db) done) ∧
    (∀ x, x ∈ done → gate_verdict M x = Applicable ∨ gate_verdict M x = Skip) ∧
    msg = error_message n (VERSION M) ∧
    ALL_SPECIAL_MIGRATIONS M !! n = Some m ∧
    window_exceeded (POSTHOG_VERSION M) m = true.
Proof.
  unfold init_special_migrations. intros Hloop.
  pose proof (sorted_NoDup (unapplied_migrations M db)) as Hnd.
  destruct (gate_loop_run _ _ _ _ _ Hnd Hloop)
    as (done & rest & Hl & Hdb' & Hdone & x & rest' & -> & Hx).
  apply gate_body_fatal_message, gate_verdict_fatal_message in Hx
    as [-> (m & Hm & Hex)].
  by exists done, x, rest', m.
Qed.

(** The exception an iteration raises, whatever the registry holds. *)
Lemma gate_body_raise_kinds M n (db : store) e :
  is_Some (ALL_SPECIAL_MIGRATIONS M !! n) →
  gate_body M n db = Raise e →
  e = ValueError ∨ e = MultipleObjectsReturned ∨
  e = ImproperlyConfigured (error_message n (VERSION M)).
Proof.
  intros [m Hm]. unfold gate_body. rewrite Hm.
  destruct (Version_parse (posthog_max_version m)); [|intros [= <-]; auto].
  destruct (Version_gt _ _); [intros [= <-]; auto|].
  destruct (SimpleSpec _); [|intros [= <-]; auto].
  destruct (spec_contains _ _); [|done].
  unfold get_or_create.
  destruct (List.filter (has_name n) db) as [|r0 [|]]; try done.
  intros [= <-]. auto.
Qed.

(** Two tables that agree on the rows of every name the loop visits make
    the loop append the same rows and end the same way. *)
Lemma gate_loop_agree M l : ∀ (db D : store),
  (∀ n, n ∈ l → List.filter (has_name n) D = List.filter (has_name n) db) →
  ∃ added out,
    gate_loop M l db = (db ++ added, out) ∧
    gate_loop M l D = (D ++ added, out).
Proof.
  induction l as [|n l IH]; intros db D Hagree; simpl.
  - exists [], (Ok PyNone). by rewrite !app_nil_r.
  - assert (Hn : List.filter (has_name n) D = List.filter (has_name n) db)
      by (apply Hagree; by left).
    assert (Hstep :
      (∃ e, gate_body M n db = Raise e ∧ gate_body M n D = Raise e) ∨
      (∃ xs, gate_body M n db = Ok (db ++ xs) ∧ gate_body M n D = Ok (D ++ xs))).
    { rewrite !gate_body_verdict. destruct (gate_verdict M n) as [e| |].
      - left. by exists e.
      - unfold get_or_create. rewrite Hn.
        destruct (List.filter (has_name n) db) as [|r0 [|]].
        + right. by exists [new_record n].
        + right. exists []. by rewrite !app_nil_r.
        + left. by exists MultipleObjectsReturned.
      - right. exists []. by rewrite !app_nil_r. }
    destruct Hstep as [(e & -> & ->)|(xs & -> & ->)].
    + exists [], (Raise e). by rewrite !app_nil_r.
    + destruct (IH (db ++ xs) (D ++ xs)) as (added & out & Hdb & HD).
      { intros x Hx. rewrite !List.filter_app. f_equal. apply Hagree. by right. }
      exists (xs ++ added), out. by rewrite !app_assoc.
Qed.

(** The names the loop has passed when it stops at [n] are the candidates
    that sort before [n]. *)
Lemma passed_before (s : gset string) (done rest : list string) n x :
  sorted s = done ++ n :: rest →
  x ∈ done ↔ x ∈ s ∧ String.ltb x n = true.
Proof.
  intros Hl.
  pose proof (sorted_NoDup s) as Hnd. pose proof (sorted_StronglySorted s) as Hs.
  rewrite Hl in Hnd, Hs. split.
  - intros Hx. split.
    + apply sorted_elem_of. rewrite Hl. apply elem_of_app. by left.
    + apply string_le_ne_ltb.
      * eapply StronglySorted_app_1_elem_of; [exact Hs|done|by left].
      * intros ->. apply NoDup_app in Hnd as (_ & Hdisj & _).
        apply (Hdisj n Hx). by left.
  - intros [Hx Hlt]. apply sorted_elem_of in Hx. rewrite Hl in Hx.
    apply elem_of_app in Hx as [Hx|Hx]; [done|].
    exfalso. apply (string_ltb_not_ge _ _ Hlt).
    by eapply StronglySorted_after.
Qed.

Lemma completed_applied db n :
  has_status db n CompletedSuccessfully → n ∈ applied_migrations db.
Proof.
  intros (r & Hr & <- & Hs). unfold applied_migrations.
  apply elem_of_list_to_set. unfold names_of.
  apply list_elem_of_fmap. exists r. split; [done|].
  apply list_elem_of_In, List.filter_In. split; [by apply list_elem_of_In|].
  unfold is_completed. by apply bool_decide_eq_true.
Qed.

(** ** The claims about the version gate *)

(** C10. Running the gate twice with nothing in between leaves the record
    table exactly as one run does, with the same outcome; the rows a run adds
    carry pairwise distinct names, none of which had a row before, and the
    rows that existed are kept as they were, in place. *)
Theorem init_special_migrations_idempotent (M : manager) (db : store) :
  let r := init_special_migrations M db in
  init_special_migrations M (fst r) = r ∧
  ∃ added : list string,
    fst r = db ++ map new_record added ∧
    NoDup added ∧
    (∀ n, n ∈ added → n ∉ names_of db) ∧
    (∀ x, x ∈ map new_record added → status x = NotStarted).
Proof.
  simpl. unfold init_special_migrations.
  destruct (gate_loop M (sorted (unapplied_migrations M db)) db)
    as [db' out] eqn:Hloop. simpl.
  pose proof (sorted_NoDup (unapplied_migrations M db)) as Hnd.
  destruct (gate_loop_run _ _ _ _ _ Hnd Hloop)
    as (done & rest & Hl & Hdb' & _ & _).
  split.
  - assert (unapplied_migrations M db' = unapplied_migrations M db) as ->.
    { unfold unapplied_migrations. by rewrite Hdb', applied_migrations_new. }
    by apply (gate_loop_rerun M _ db db').
  - exists (List.filter (creates M db) done). split; [done|].
    split; [|split].
    + apply created_NoDup. rewrite Hl in Hnd. by apply NoDup_app in Hnd as [? _].
    + intros n. apply created_fresh.
    + intros x (n & -> & _)%list_elem_of_fmap. done.
Qed.

(** C5. A migration with a CompletedSuccessfully record is not a candidate:
    it is outside the set the loop works through, so whatever the
    application version, no fatal configuration error is raised for it (an
    error that is raised names another migration) and its rows in the record
    table are exactly those from before the call. *)
Theorem completed_migration_excluded (M : manager) (db : store) (n : string) :
  has_status db n CompletedSuccessfully →
  (n ∉ unapplied_migrations M db) ∧
  (snd (init_special_migrations M db)
     ≠ Raise (ImproperlyConfigured (error_message n (VERSION M)))) ∧
  (∀ msg, snd (init_special_migrations M db) = Raise (ImproperlyConfigured msg) →
          ∃ n', n' ≠ n ∧ n' ∈ unapplied_migrations M db ∧
                msg = error_message n' (VERSION M)) ∧
  List.filter (has_name n) (fst (init_special_migrations M db))
    = List.filter (has_name n) db.
Proof.
  intros Hdone. apply completed_applied in Hdone.
  assert (Hn : n ∉ unapplied_migrations M db).
  { unfold unapplied_migrations. set_solver. }
  split; [done|]. unfold init_special_migrations.
  destruct (gate_loop M (sorted (unapplied_migrations M db)) db)
    as [db' out] eqn:Hloop. simpl.
  pose proof (sorted_NoDup (unapplied_migrations M db)) as Hnd.
  assert (Hmsg : ∀ msg, out = Raise (ImproperlyConfigured msg) →
            ∃ n', n' ≠ n ∧ n' ∈ unapplied_migrations M db ∧
                  msg = error_message n' (VERSION M)).
  { intros msg ->.
    destruct (gate_loop_run _ _ _ _ _ Hnd Hloop)
      as (done & rest & Hl & _ & _ & x & rest' & -> & Hx).
    apply gate_body_fatal_message, gate_verdict_fatal_message in Hx as [-> _].
    assert (x ∈ unapplied_migrations M db) as Hin.
    { apply sorted_elem_of. rewrite Hl. set_solver. }
    exists x. repeat split; [|done]. by intros ->. }
  split; [|split; [done|]].
  - intros Hout. destruct (Hmsg _ Hout) as (n' & Hne & _ & Heq).
    by apply error_message_inj in Heq.
  - eapply gate_loop_other; [done..|]. by rewrite sorted_elem_of.
Qed.

(** C2, as the code has it.  Whenever the gate raises the fatal
    configuration error, it does so for an incomplete migration [n] whose
    window is behind the application version, and the message is
    "Migration <n> is required for PostHog versions above <VERSION>.": it
    quotes the migration's name and the application's own version string. *)
Theorem fatal_message_names_migration_and_app_version
    (M : manager) (db db' : store) (msg : string) :
  init_special_migrations M db = (db', Raise (ImproperlyConfigured msg)) →
  ∃ n m,
    n ∈ unapplied_migrations M db ∧
    ALL_SPECIAL_MIGRATIONS M !! n = Some m ∧
    window_exceeded (POSTHOG_VERSION M) m = true ∧
    msg = "Migration " +:+ n +:+ " is required for PostHog versions above "
            +:+ VERSION M +:+ "." ∧
    mentions n msg = true ∧
    mentions (VERSION M) msg = true.
Proof.
  intros Hrun.
  destruct (gate_loop_fatal _ _ _ _ Hrun)
    as (done & n & rest & m & Hl & _ & _ & -> & Hm & Hex).
  exists n, m. repeat split; try done.
  - apply sorted_elem_of. rewrite Hl. apply elem_of_app. right. by left.
  - apply error_message_mentions_name.
  - apply error_message_mentions_version.
Qed.

(** C9. When the gate raises the fatal error for migration [n], the table is
    not put back: it is the table from before the call followed by a fresh
    NotStarted row for exactly those incomplete migrations that sort before
    [n], have the application version in their window and had no row. *)
Theorem fatal_error_keeps_created_records
    (M : manager) (db db' : store) (n : string) :
  init_special_migrations M db
    = (db', Raise (ImproperlyConfigured (error_message n (VERSION M)))) →
  n ∈ unapplied_migrations M db ∧
  ∃ created : list string,
    db' = db ++ map new_record created ∧
    ∀ x, x ∈ created ↔
         x ∈ unapplied_migrations M db ∧ String.ltb x n = true ∧
         window_of M x = true ∧ x ∉ names_of db.
Proof.
  intros Hrun.
  destruct (gate_loop_fatal _ _ _ _ Hrun)
    as (done & n' & rest & m & Hl & Hdb' & Hdone & Hmsg & Hm & Hex).
  apply error_message_inj in Hmsg as ->.
  split.
  { apply sorted_elem_of. rewrite Hl. apply elem_of_app. right. by left. }
  exists (List.filter (creates M db) done). split; [done|].
  intros x. rewrite list_elem_of_In, List.filter_In, <- list_elem_of_In.
  unfold creates. rewrite andb_true_iff, lacks_record_true.
  split.
  - intros [Hx [Ha Hlack]].
    pose proof (proj1 (passed_before _ _ _ _ x Hl) Hx) as [Hcand Hlt].
    repeat split; try done.
    by rewrite <- (code_applicable_window _ _ (Hdone x Hx)).
  - intros (Hcand & Hlt & Hw & Hlack).
    assert (Hx : x ∈ done) by (by apply (passed_before _ _ _ _ x Hl)).
    repeat split; try done.
    by rewrite (code_applicable_window _ _ (Hdone x Hx)).
Qed.

(** C1, as the code has it.  If an incomplete migration [n] has its window
    behind the application version, the gate raises the fatal configuration
    error, and the error names the first such migration in name order: a
    migration [n0] that sorts no later than [n] (and than every other missed
    incomplete migration), so [n] itself when it is the first.  This needs
    the iterations before that first one to raise nothing else: every
    incomplete migration that sorts before [n] and has no missed migration at
    or before it must have bounds the version library accepts and, where it
    is applicable, at most one record. *)
Theorem missed_migration_is_fatal
    (M : manager) (db : store) (n : string) (m : SpecialMigrationDefinition) :
  ALL_SPECIAL_MIGRATIONS M !! n = Some m →
  n ∈ unapplied_migrations M db →
  window_exceeded (POSTHOG_VERSION M) m = true →
  (∀ x, x ∈ unapplied_migrations M db → String.ltb x n = true →
        (∀ y my, y ∈ unapplied_migrations M db → String.le y x →
                 ALL_SPECIAL_MIGRATIONS M !! y = Some my →
                 window_exceeded (POSTHOG_VERSION M) my = false) →
        iteration_clean M db x) →
  ∃ n0 m0,
    n0 ∈ unapplied_migrations M db ∧
    ALL_SPECIAL_MIGRATIONS M !! n0 = Some m0 ∧
    window_exceeded (POSTHOG_VERSION M) m0 = true ∧
    String.le n0 n ∧
    (∀ x mx, x ∈ unapplied_migrations M db →
             ALL_SPECIAL_MIGRATIONS M !! x = Some mx →
             window_exceeded (POSTHOG_VERSION M) mx = true → String.le n0 x) ∧
    snd (init_special_migrations M db)
      = Raise (ImproperlyConfigured (error_message n0 (VERSION M))) ∧
    mentions n0 (error_message n0 (VERSION M)) = true.
Proof.
  intros Hm Hn Hex Hclean. unfold init_special_migrations.
  destruct (gate_loop M (sorted (unapplied_migrations M db)) db)
    as [db' out] eqn:Hloop. simpl.
  pose proof (sorted_NoDup (unapplied_migrations M db)) as Hnd.
  pose proof (sorted_StronglySorted (unapplied_migrations M db)) as Hs.
  destruct (gate_loop_run _ _ _ _ _ Hnd Hloop)
    as (done & rest & Hl & Hdb' & Hdone & Hout).
  assert (Hpassed : ∀ x mx, x ∈ done →
            ALL_SPECIAL_MIGRATIONS M !! x = Some mx →
            window_exceeded (POSTHOG_VERSION M) mx = true → False).
  { intros x mx Hx Hmx Hexx.
    pose proof (gate_verdict_exceeded _ _ _ Hmx Hexx) as Hv.
    destruct (Hdone x Hx) as [Hv'|Hv']; congruence. }
  destruct out as [v|e].
  { destruct Hout as [_ ->]. rewrite app_nil_r in Hl. exfalso.
    apply (Hpassed n m); [|done..]. rewrite <- Hl. by apply sorted_elem_of. }
  destruct Hout as (n0 & rest' & -> & Hbody).
  assert (Hn0 : n0 ∈ unapplied_migrations M db).
  { apply sorted_elem_of. rewrite Hl. apply elem_of_app. right. by left. }
  destruct (unapplied_lookup _ _ _ Hn0) as [m0 Hm0].
  assert (Hn0n : String.le n0 n).
  { pose proof Hn as Hn'. apply sorted_elem_of in Hn'. rewrite Hl in Hn', Hs.
    apply elem_of_app in Hn' as [Hd|Hr]; [by destruct (Hpassed n m)|].
    by eapply StronglySorted_after. }
  assert (Hsame : List.filter (has_name n0) db' = List.filter (has_name n0) db).
  { rewrite Hdb'. apply filter_has_name_created. intros Hin.
    rewrite Hl in Hnd. apply NoDup_app in Hnd as (_ & Hdisj & _).
    apply (Hdisj n0 Hin). by left. }
  assert (Hex0 : window_exceeded (POSTHOG_VERSION M) m0 = true ∧
                 e = ImproperlyConfigured (error_message n0 (VERSION M))).
  { destruct (window_exceeded (POSTHOG_VERSION M) m0) eqn:Hmiss.
    - split; [done|].
      pose proof (gate_verdict_exceeded _ _ _ Hm0 Hmiss) as Hv.
      rewrite gate_body_verdict, Hv in Hbody. by injection Hbody as <-.
    - exfalso.
      assert (Hne : n0 ≠ n) by (intros ->; congruence).
      assert (Hc : iteration_clean M db n0).
      { apply Hclean; [done|by apply string_le_ne_ltb|].
        intros y my Hy Hle Hmy. apply not_true_is_false. intros Hexy.
        apply sorted_elem_of in Hy. rewrite Hl in Hy, Hs.
        apply elem_of_app in Hy as [Hy|Hy]; [by destruct (Hpassed y my)|].
        apply elem_of_cons in Hy as [->|Hy]; [congruence|].
        assert (String.le n0 y) by (eapply StronglySorted_after; [exact Hs|by right]).
        assert (y = n0) as -> by (by apply (anti_symm String.le)).
        congruence. }
      assert (Hc' : iteration_clean M db' n0).
      { destruct Hc as [Hb Hsr]. split; [done|]. intros Ha.
        unfold single_record. rewrite Hsame. by apply Hsr. }
      destruct (gate_body_raise_clean _ _ _ _ _ Hm0 Hc' Hbody) as [? _].
      congruence. }
  destruct Hex0 as [Hex0 ->].
  assert (Hleast : ∀ x mx, x ∈ unapplied_migrations M db →
            ALL_SPECIAL_MIGRATIONS M !! x = Some mx →
            window_exceeded (POSTHOG_VERSION M) mx = true → String.le n0 x).
  { intros x mx Hx Hmx Hexx. apply sorted_elem_of in Hx.
    rewrite Hl in Hx, Hs. apply elem_of_app in Hx as [Hx|Hx].
    - by destruct (Hpassed x mx).
    - by eapply StronglySorted_after. }
  exists n0, m0. repeat split; try done. apply error_message_mentions_name.
Qed.

(** On a run that completes, the rows appended are those of the
    pending-applicable migrations without a record. *)
Lemma created_pending M (db : store) (l : list string) :
  (∀ x, x ∈ l → gate_verdict M x = Applicable ∨ gate_verdict M x = Skip) →
  List.filter (creates M db) l
  = List.filter (lacks_record db) (List.filter (window_of M) l).
Proof.
  intros Hv. rewrite <- filter_andb.
  apply List.filter_ext_in. intros x Hx. unfold creates. f_equal.
  apply code_applicable_window, Hv. by apply list_elem_of_In.
Qed.

(** C4, as the code has it.  A call that completes hands back [None]; the
    pending-applicable migrations show only in the record table, which gains,
    in name order, a fresh NotStarted row for each of them that had none. *)
Theorem gate_returns_none (M : manager) (db db' : store) (v : pyvalue) :
  init_special_migrations M db = (db', Ok v) →
  v = PyNone ∧
  StronglySorted String.le (pending_applicable M db) ∧
  db' = db ++ map new_record
                  (List.filter (lacks_record db) (pending_applicable M db)).
Proof.
  intros Hrun. unfold init_special_migrations in Hrun.
  pose proof (sorted_NoDup (unapplied_migrations M db)) as Hnd.
  destruct (gate_loop_run _ _ _ _ _ Hnd Hrun)
    as (done & rest & Hl & Hdb' & Hdone & -> & ->).
  rewrite app_nil_r in Hl. subst done.
  split; [done|]. split.
  - apply StronglySorted_filter, sorted_StronglySorted.
  - unfold pending_applicable. by rewrite <- created_pending.
Qed.

(** C6, as the code has it.  For an incomplete migration [n]:
    if its iteration finds it applicable (the upper bound is a version, the
    application version is not above it and lies in the window, both ends
    included) and every incomplete migration that sorts before [n] gets
    through its own iteration without an exception, then [n] is
    pending-applicable and after the call the table holds a fresh NotStarted
    row for [n] exactly when it held none, and otherwise the rows it had,
    whether the call completes or raises for a later migration;
    if the application version is below the window (not above the upper
    bound and not in the window), then no row is created for [n], no fatal
    error is raised for [n] and, with bounds the version library accepts,
    the iteration for [n] skips it without raising anything. *)
Theorem applicable_gets_record_below_is_ignored
    (M : manager) (db : store) (n : string) (m : SpecialMigrationDefinition) :
  ALL_SPECIAL_MIGRATIONS M !! n = Some m →
  n ∈ unapplied_migrations M db →
  (code_applicable M n = true →
   (∀ x, x ∈ unapplied_migrations M db → String.ltb x n = true →
         iteration_completes M db x) →
   n ∈ pending_applicable M db ∧
   record_ensured db (fst (init_special_migrations M db)) n) ∧
  (window_exceeded (POSTHOG_VERSION M) m = false →
   in_window (POSTHOG_VERSION M) m = false →
   List.filter (has_name n) (fst (init_special_migrations M db))
     = List.filter (has_name n) db ∧
   (snd (init_special_migrations M db)
      ≠ Raise (ImproperlyConfigured (error_message n (VERSION M)))) ∧
   (bounds_accepted M n → gate_verdict M n = Skip)).
Proof.
  intros Hm Hn.
  pose proof (sorted_NoDup (unapplied_migrations M db)) as Hnd.
  pose proof (sorted_StronglySorted (unapplied_migrations M db)) as Hs.
  destruct (init_special_migrations M db) as [db' out] eqn:Hrun. simpl.
  pose proof Hrun as Hloop. unfold init_special_migrations in Hloop.
  destruct (gate_loop_run _ _ _ _ _ Hnd Hloop)
    as (done & rest & Hl & Hdb' & Hdone & Hout).
  assert (Hnd' : NoDup done).
  { rewrite Hl in Hnd. by apply NoDup_app in Hnd as [? _]. }
  split.
  - intros Happ Hbefore.
    assert (Hv : gate_verdict M n = Applicable).
    { unfold code_applicable in Happ. by destruct (gate_verdict M n). }
    assert (Hpend : n ∈ pending_applicable M db).
    { unfold pending_applicable. apply list_elem_of_In, List.filter_In.
      split; [by apply list_elem_of_In, sorted_elem_of|].
      by apply gate_verdict_window. }
    split; [done|].
    pose proof Hn as Hn'. apply sorted_elem_of in Hn'. rewrite Hl in Hn'.
    unfold record_ensured.
    apply elem_of_app in Hn' as [Hdn|Hrest].
    + rewrite Hdb', List.filter_app.
      assert (Hc : creates M db n = lacks_record db n).
      { unfold creates. by rewrite Happ. }
      destruct (lacks_record db n) eqn:Hlack.
      * apply lacks_record_true, filter_has_name_nil in Hlack. rewrite Hlack.
        simpl. apply filter_has_name_new_in; [by apply created_NoDup|].
        apply list_elem_of_In, List.filter_In.
        split; [by apply list_elem_of_In|done].
      * rewrite filter_has_name_new; [by rewrite app_nil_r|].
        intros Hcr. apply list_elem_of_In, List.filter_In in Hcr as [_ Hcr].
        congruence.
    + destruct out as [v|e];
        [destruct Hout as [_ ->]; by apply elem_of_nil in Hrest|].
      destruct Hout as (n0 & rest' & -> & Hbody).
      assert (Hsame : List.filter (has_name n0) db' = List.filter (has_name n0) db).
      { rewrite Hdb'. apply filter_has_name_created. intros Hin.
        rewrite Hl in Hnd. apply NoDup_app in Hnd as (_ & Hdisj & _).
        apply (Hdisj n0 Hin). by left. }
      destruct (decide (n0 = n)) as [->|Hne].
      * (* the iteration for [n] itself raised: several rows of that name *)
        rewrite gate_body_verdict, Hv in Hbody.
        destruct (get_or_create db' n) as [[[? ?] ?]|e'] eqn:Hget; [done|].
        apply get_or_create_raise in Hget as [_ Hmany].
        rewrite Hsame.
        assert (lacks_record db n = false) as ->; [|done].
        apply not_true_is_false. intros Hlack.
        apply lacks_record_true, filter_has_name_nil in Hlack.
        apply Hmany. unfold single_record. rewrite Hsame, Hlack. simpl. lia.
      * exfalso.
        assert (Hn0 : n0 ∈ unapplied_migrations M db).
        { apply sorted_elem_of. rewrite Hl. apply elem_of_app. right. by left. }
        assert (Hlt : String.ltb n0 n = true).
        { apply string_le_ne_ltb; [|done]. rewrite Hl in Hs.
          by eapply StronglySorted_after. }
        rewrite gate_body_verdict in Hbody.
        destruct (Hbefore n0 Hn0 Hlt) as [Hv0|[Hv0 Hsingle]];
          rewrite Hv0 in Hbody; [done|].
        assert (Hs' : single_record db' n0).
        { unfold single_record. by rewrite Hsame. }
        by destruct (get_or_create_single db' n0 Hs') as [[[? ?] ?] Hget];
          rewrite Hget in Hbody.
  - intros Hnex Hnin.
    assert (Hnapp : code_applicable M n = false).
    { apply not_true_is_false. intros Happ.
      assert (Hv : gate_verdict M n = Applicable).
      { unfold code_applicable in Happ. by destruct (gate_verdict M n). }
      apply gate_verdict_window in Hv. unfold window_of in Hv.
      rewrite Hm in Hv. congruence. }
    split; [|split].
    + rewrite Hdb', List.filter_app, filter_has_name_new; [by rewrite app_nil_r|].
      intros Hcr. apply list_elem_of_In, List.filter_In in Hcr as [_ Hcr].
      unfold creates in Hcr. by rewrite Hnapp in Hcr.
    + intros ->.
      destruct (gate_loop_fatal _ _ _ _ Hrun)
        as (? & n' & ? & m' & _ & _ & _ & Hmsg & Hm' & Hex').
      apply error_message_inj in Hmsg as <-. congruence.
    + unfold bounds_accepted, gate_verdict, window_exceeded, in_window in *.
      rewrite Hm.
      destruct (Version_parse (posthog_max_version m)) as [hi|]; [|done].
      rewrite Hnex. intros [?|[spec Hspec]]; [done|].
      rewrite Hspec in Hnin |- *. by rewrite Hnin.
Qed.

(** ** Further properties of the version gate *)

(** X3. When every registered migration has a completed record (in
    particular when the registry is empty) the gate does nothing: the table
    is unchanged and the call completes, whatever the versions say. *)
Theorem gate_noop_when_all_completed (M : manager) (db : store) :
  dom (ALL_SPECIAL_MIGRATIONS M) ⊆ applied_migrations db →
  init_special_migrations M db = (db, Ok PyNone).
Proof.
  intros Hsub. unfold init_special_migrations.
  assert (unapplied_migrations M db = ∅) as ->.
  { unfold unapplied_migrations. set_solver. }
  by rewrite sorted_empty.
Qed.

(** X4. The gate never fails on a registry lookup: the only exceptions it
    raises are ValueError (a bound that is no version), Django's
    MultipleObjectsReturned (several records under one name) and the fatal
    ImproperlyConfigured for an incomplete migration of the registry. *)
Theorem gate_exception_kinds (M : manager) (db : store) (e : exn) :
  snd (init_special_migrations M db) = Raise e →
  e = ValueError ∨ e = MultipleObjectsReturned ∨
  ∃ n, n ∈ unapplied_migrations M db ∧
       e = ImproperlyConfigured (error_message n (VERSION M)).
Proof.
  unfold init_special_migrations.
  destruct (gate_loop M (sorted (unapplied_migrations M db)) db)
    as [db' out] eqn:Hloop. simpl. intros ->.
  pose proof (sorted_NoDup (unapplied_migrations M db)) as Hnd.
  destruct (gate_loop_run _ _ _ _ _ Hnd Hloop)
    as (done & rest & Hl & _ & _ & n & rest' & -> & Hbody).
  assert (Hn : n ∈ unapplied_migrations M db).
  { apply sorted_elem_of. rewrite Hl. apply elem_of_app. right. by left. }
  destruct (unapplied_lookup _ _ _ Hn) as [m Hm].
  destruct (gate_body_raise_kinds M n db' e) as [?|[?|?]]; eauto.
Qed.

(** A run that completes has passed every incomplete migration, so none of
    them has its window behind the application version. *)
Lemma gate_ok_nothing_missed (M : manager) (db : store) :
  snd (init_special_migrations M db) = Ok PyNone →
  ∀ n m, n ∈ unapplied_migrations M db →
         ALL_SPECIAL_MIGRATIONS M !! n = Some m →
         window_exceeded (POSTHOG_VERSION M) m = false.
Proof.
  unfold init_special_migrations.
  destruct (gate_loop M (sorted (unapplied_migrations M db)) db)
    as [db' out] eqn:Hloop. simpl. intros ->.
  pose proof (sorted_NoDup (unapplied_migrations M db)) as Hnd.
  destruct (gate_loop_run _ _ _ _ _ Hnd Hloop)
    as (done & rest & Hl & Hdb' & Hdone & _ & ->).
  rewrite app_nil_r in Hl. subst done.
  intros n m Hn Hm. apply not_true_is_false. intros Hex.
  apply sorted_elem_of in Hn.
  pose proof (gate_verdict_exceeded _ _ _ Hm Hex) as Hv.
  destruct (Hdone n Hn) as [Hv'|Hv']; congruence.
Qed.

(** When every iteration is clean, the only exception of a run is the fatal
    error of a missed migration. *)
Lemma gate_raise_clean (M : manager) (db : store) (e : exn) :
  (∀ x, x ∈ unapplied_migrations M db → iteration_clean M db x) →
  snd (init_special_migrations M db) = Raise e →
  ∃ n m, n ∈ unapplied_migrations M db ∧
         ALL_SPECIAL_MIGRATIONS M !! n = Some m ∧
         window_exceeded (POSTHOG_VERSION M) m = true ∧
         e = ImproperlyConfigured (error_message n (VERSION M)).
Proof.
  intros Hclean. unfold init_special_migrations.
  destruct (gate_loop M (sorted (unapplied_migrations M db)) db)
    as [db' out] eqn:Hloop. simpl. intros ->.
  pose proof (sorted_NoDup (unapplied_migrations M db)) as Hnd.
  destruct (gate_loop_run _ _ _ _ _ Hnd Hloop)
    as (done & rest & Hl & Hdb' & Hdone & n & rest' & -> & Hbody).
  assert (Hn : n ∈ unapplied_migrations M db).
  { apply sorted_elem_of. rewrite Hl. apply elem_of_app. right. by left. }
  destruct (unapplied_lookup _ _ _ Hn) as [m Hm].
  assert (Hsame : List.filter (has_name n) db' = List.filter (has_name n) db).
  { rewrite Hdb'. apply filter_has_name_created. intros Hin.
    rewrite Hl in Hnd. apply NoDup_app in Hnd as (_ & Hdisj & _).
    apply (Hdisj n Hin). by left. }
  assert (Hc : iteration_clean M db' n).
  { destruct (Hclean n Hn) as [Hb Hsr]. split; [done|]. intros Ha.
    unfold single_record. rewrite Hsame. by apply Hsr. }
  destruct (gate_body_raise_clean _ _ _ _ _ Hm Hc Hbody) as [? ?].
  by exists n, m.
Qed.

(** X5. When every incomplete migration has bounds the version library
    accepts and, where it is applicable, at most one record, the gate
    completes exactly when no incomplete migration has its window behind the
    application version; otherwise the exception is the fatal
    ImproperlyConfigured, never a ValueError or MultipleObjectsReturned. *)
Theorem gate_completes_iff_nothing_missed (M : manager) (db : store) :
  (∀ x, x ∈ unapplied_migrations M db → iteration_clean M db x) →
  (snd (init_special_migrations M db) = Ok PyNone ↔
   ∀ n m, n ∈ unapplied_migrations M db →
          ALL_SPECIAL_MIGRATIONS M !! n = Some m →
          window_exceeded (POSTHOG_VERSION M) m = false) ∧
  (∀ e, snd (init_special_migrations M db) = Raise e →
        ∃ msg, e = ImproperlyConfigured msg).
Proof.
  intros Hclean. split; [split|].
  - apply gate_ok_nothing_missed.
  - intros Hnone.
    destruct (snd (init_special_migrations M db)) as [v|e] eqn:Hout.
    + destruct (init_special_migrations M db) as [db' out] eqn:Hrun.
      simpl in Hout. subst out. unfold init_special_migrations in Hrun.
      pose proof (sorted_NoDup (unapplied_migrations M db)) as Hnd.
      by destruct (gate_loop_run _ _ _ _ _ Hnd Hrun)
        as (? & ? & _ & _ & _ & -> & _).
    + destruct (gate_raise_clean M db e Hclean Hout) as (n & m & Hn & Hm & Hex & _).
      by rewrite (Hnone n m Hn Hm) in Hex.
  - intros e He.
    destruct (gate_raise_clean M db e Hclean He) as (n & m & _ & _ & _ & ->).
    eauto.
Qed.

(** X6. The gate never completes a migration: the set of completed
    migrations, and with it the set of candidates, is the same after the
    call as before. *)
Theorem gate_keeps_completed_set (M : manager) (db : store) :
  applied_migrations (fst (init_special_migrations M db)) = applied_migrations db ∧
  unapplied_migrations M (fst (init_special_migrations M db))
  = unapplied_migrations M db.
Proof.
  unfold init_special_migrations.
  destruct (gate_loop M (sorted (unapplied_migrations M db)) db)
    as [db' out] eqn:Hloop. simpl.
  pose proof (sorted_NoDup (unapplied_migrations M db)) as Hnd.
  destruct (gate_loop_run _ _ _ _ _ Hnd Hloop) as (done & rest & _ & -> & _).
  unfold unapplied_migrations. by rewrite applied_migrations_new.
Qed.

(** X7. The gate keeps the record names unique: on a table without two rows
    of one name it leaves a table without two rows of one name, whether it
    completes or raises. *)
Theorem gate_preserves_unique_names (M : manager) (db : store) :
  unique_names db → unique_names (fst (init_special_migrations M db)).
Proof.
  intros Hu. unfold init_special_migrations.
  destruct (gate_loop M (sorted (unapplied_migrations M db)) db)
    as [db' out] eqn:Hloop. simpl.
  pose proof (sorted_NoDup (unapplied_migrations M db)) as Hnd.
  destruct (gate_loop_run _ _ _ _ _ Hnd Hloop) as (done & rest & Hl & -> & _).
  apply created_unique_names; [|done].
  rewrite Hl in Hnd. by apply NoDup_app in Hnd as [? _].
Qed.

(** ** The gate and the rest of the table *)

(** X16. Records of names that are not in the registry are ignored: with
    such a record added to the table, the gate ends the same way and appends
    the same rows. *)
Theorem gate_ignores_foreign_records
    (M : manager) (db : store) (r : SpecialMigration) :
  name r ∉ dom (ALL_SPECIAL_MIGRATIONS M) →
  ∃ added out,
    init_special_migrations M db = (db ++ added, out) ∧
    init_special_migrations M (db ++ [r]) = ((db ++ [r]) ++ added, out).
Proof.
  intros Hr. unfold init_special_migrations.
  assert (unapplied_migrations M (db ++ [r]) = unapplied_migrations M db) as ->.
  { unfold unapplied_migrations, applied_migrations,
      get_all_completed_special_migrations.
    rewrite List.filter_app, names_of_app, list_to_set_app_L. simpl.
    destruct (is_completed r); simpl; set_solver. }
  apply gate_loop_agree. intros n Hn.
  rewrite List.filter_app. simpl. unfold has_name at 2.
  destruct (String.eqb_spec (name r) n) as [E|_]; [|by rewrite app_nil_r].
  exfalso. apply Hr. rewrite E.
  apply sorted_elem_of in Hn. unfold unapplied_migrations in Hn. set_solver.
Qed.

(** X17. Moving the application to a lower version never trips the gate:
    if the gate completes at one application version, it completes, on the
    same registry and table, at every version that exceeds no upper bound
    the first one does not exceed, as long as the iterations at that version
    are clean (bounds the version library accepts, at most one record for an
    applicable migration). *)
Theorem gate_completes_at_lower_version (M M' : manager) (db : store) :
  ALL_SPECIAL_MIGRATIONS M' = ALL_SPECIAL_MIGRATIONS M →
  (∀ hi, Version_gt (POSTHOG_VERSION M') hi = true →
         Version_gt (POSTHOG_VERSION M) hi = true) →
  (∀ x, x ∈ unapplied_migrations M' db → iteration_clean M' db x) →
  snd (init_special_migrations M db) = Ok PyNone →
  snd (init_special_migrations M' db) = Ok PyNone.
Proof.
  intros Hreg Hle Hclean Hok.
  destruct (snd (init_special_migrations M' db)) as [v|e] eqn:Hout.
  - destruct (init_special_migrations M' db) as [db' out] eqn:Hrun.
    simpl in Hout. subst out. unfold init_special_migrations in Hrun.
    pose proof (sorted_NoDup (unapplied_migrations M' db)) as Hnd.
    by destruct (gate_loop_run _ _ _ _ _ Hnd Hrun)
      as (? & ? & _ & _ & _ & -> & _).
  - exfalso.
    destruct (gate_raise_clean M' db e Hclean Hout) as (n & m & Hn & Hm & Hex & _).
    assert (Hn' : n ∈ unapplied_migrations M db).
    { unfold unapplied_migrations in *. by rewrite <- Hreg. }
    rewrite Hreg in Hm.
    pose proof (gate_ok_nothing_missed M db Hok n m Hn' Hm) as Hnot.
    unfold window_exceeded in *.
    destruct (Version_parse (posthog_max_version m)) as [hi|]; [|done].
    by rewrite (Hle _ Hex) in Hnot.
Qed.

End GateProofs.

(** ** The gate on the scenarios *)

(** An iteration whose verdict is not a ValueError has accepted bounds. *)
Lemma iteration_clean_verdict `{VersionLibrary} (M : manager) (db : store) n :
  gate_verdict M n ≠ Fatal ValueError → single_record db n →
  iteration_clean M db n.
Proof.
  intros Hv Hs. split; [|done]. unfold bounds_accepted, gate_verdict in *.
  destruct (ALL_SPECIAL_MIGRATIONS M !! n) as [m|]; [|done].
  destruct (Version_parse (posthog_max_version m)); [|done].
  destruct (Version_gt _ _); [by left|]. right.
  by destruct (SimpleSpec (window_expression m)).
Qed.

Lemma release_compare_gt_trans a b c :
  release_compare a b = Gt → release_compare b c = Gt → release_compare a c = Gt.
Proof.
  destruct a as [a1 a2 a3], b as [b1 b2 b3], c as [c1 c2 c3].
  unfold release_compare. simpl.
  repeat match goal with
         | |- context [(?x ?= ?y)%N] => destruct (N.compare_spec x y)
         end; subst; try done; try lia.
Qed.

Lemma release_gt_trans (a b c : release) :
  release_gt a b = true → release_gt b c = true → release_gt a c = true.
Proof.
  unfold release_gt.
  destruct (release_compare a b) eqn:Hab; try done.
  destruct (release_compare b c) eqn:Hbc; try done.
  by rewrite (release_compare_gt_trans _ _ _ Hab Hbc).
Qed.

Lemma completed_migration_excluded_witness :
  has_status [completed_record "0001_first"] "0001_first" CompletedSuccessfully ∧
  snd (init_special_migrations two_missed [completed_record "0001_first"])
    ≠ Raise (ImproperlyConfigured
               (error_message "0001_first" (VERSION two_missed))).
Proof.
  assert (H : has_status [completed_record "0001_first"] "0001_first"
                         CompletedSuccessfully).
  { exists (completed_record "0001_first").
    split; [apply list_elem_of_here|split; reflexivity]. }
  split; [exact H|].
  exact (proj1 (proj2 (completed_migration_excluded
                         two_missed [completed_record "0001_first"]
                         "0001_first" H))).
Defined.

Lemma fatal_message_names_migration_and_app_version_witness :
  ∃ n m,
    ALL_SPECIAL_MIGRATIONS sample_by_at_1_32 !! n = Some m ∧
    mentions (VERSION sample_by_at_1_32)
             "Migration events_sample_by_migration is required for PostHog versions above 1.32.0."
      = true.
Proof.
  destruct (fatal_message_names_migration_and_app_version
              sample_by_at_1_32 [new_record "events_sample_by_migration"]
              [new_record "events_sample_by_migration"]
              "Migration events_sample_by_migration is required for PostHog versions above 1.32.0.")
    as (n & m & _ & Hm & _ & _ & _ & Hv).
  - vm_compute; reflexivity.
  - exists n, m. split; [exact Hm|exact Hv].
Defined.

(** C2, as worded, fails on the spec's own scenario: window (1.30.0, 1.31.0),
    application 1.32.0, record NotStarted.  The message quotes 1.32.0 and
    nowhere 1.31.0. *)
Lemma fatal_message_omits_upper_bound :
  ¬ @fatal_message_references_upper_bound release_versions.
Proof.
  intros H.
  destruct (H sample_by_at_1_32 [new_record "events_sample_by_migration"]
              "events_sample_by_migration" EventsSampleBy.Migration)
    as [_ Hmax].
  - vm_compute; reflexivity.
  - vm_compute; reflexivity.
  - vm_compute; reflexivity.
  - vm_compute in Hmax. discriminate.
Qed.

Lemma fatal_error_keeps_created_records_witness :
  init_special_migrations applicable_then_missed []
    = ([new_record "0001_sample_by"],
       Raise (ImproperlyConfigured
                (error_message "0002_legacy" (VERSION applicable_then_missed)))) ∧
  ∃ created : list string,
    [new_record "0001_sample_by"] = [] ++ map new_record created ∧
    ∀ x, x ∈ created ↔
         x ∈ unapplied_migrations applicable_then_missed [] ∧
         String.ltb x "0002_legacy" = true ∧
         window_of applicable_then_missed x = true ∧ x ∉ names_of [].
Proof.
  assert (Hrun : init_special_migrations applicable_then_missed []
    = ([new_record "0001_sample_by"],
       Raise (ImproperlyConfigured
                (error_message "0002_legacy" (VERSION applicable_then_missed)))))
    by (vm_compute; reflexivity).
  split; [exact Hrun|].
  exact (proj2 (fatal_error_keeps_created_records
                  applicable_then_missed [] _ "0002_legacy" Hrun)).
Defined.

(** On [applicable_then_missed] the applicable migration that sorts first is
    clean and the missed one is named; on [missed_then_malformed] the missed
    migration sorts first, and the bound that is no version behind it is
    never read. *)
Lemma missed_migration_is_fatal_witness :
  (∃ n0,
     String.le n0 "0002_legacy" ∧
     snd (init_special_migrations applicable_then_missed [])
       = Raise (ImproperlyConfigured
                  (error_message n0 (VERSION applicable_then_missed)))) ∧
  (∃ n0,
     String.le n0 "0001_legacy" ∧
     snd (init_special_migrations missed_then_malformed [])
       = Raise (ImproperlyConfigured
                  (error_message n0 (VERSION missed_then_malformed)))).
Proof.
  split.
  - destruct (missed_migration_is_fatal applicable_then_missed []
                "0002_legacy" window_1_28)
      as (n0 & m0 & _ & _ & _ & Hle & _ & Hout & _).
    + vm_compute; reflexivity.
    + by_compute.
    + vm_compute; reflexivity.
    + intros x Hx Hlt _.
      assert (Hc : x ∈ ["0001_sample_by"; "0002_legacy"]).
      { apply sorted_elem_of in Hx. exact Hx. }
      apply elem_of_cons in Hc as [->|Hc].
      * apply iteration_clean_verdict; [vm_compute; discriminate|vm_compute; lia].
      * apply elem_of_cons in Hc as [->|Hc]; [vm_compute in Hlt; discriminate|].
        destruct (proj1 (elem_of_nil x) Hc).
    + exists n0. split; [exact Hle|exact Hout].
  - destruct (missed_migration_is_fatal missed_then_malformed []
                "0001_legacy" window_1_28)
      as (n0 & m0 & _ & _ & _ & Hle & _ & Hout & _).
    + vm_compute; reflexivity.
    + by_compute.
    + vm_compute; reflexivity.
    + intros x Hx Hlt _.
      assert (Hc : x ∈ ["0001_legacy"; "0002_broken"]).
      { apply sorted_elem_of in Hx. exact Hx. }
      apply elem_of_cons in Hc as [->|Hc]; [vm_compute in Hlt; discriminate|].
      apply elem_of_cons in Hc as [->|Hc]; [vm_compute in Hlt; discriminate|].
      destruct (proj1 (elem_of_nil x) Hc).
    + exists n0. split; [exact Hle|exact Hout].
Defined.

(** Why the earlier iterations must be clean: a bound that is no version, or
    two rows under one name, stops the gate with another exception before
    the missed migration is reached. *)
Lemma other_exceptions_come_first :
  snd (init_special_migrations malformed_then_missed []) = Raise ValueError ∧
  snd (init_special_migrations applicable_then_missed
         [new_record "0001_sample_by"; new_record "0001_sample_by"])
  = Raise MultipleObjectsReturned.
Proof. split; vm_compute; reflexivity. Qed.

(** C1, as worded, fails: with two missed migrations the error names the
    first one only. *)
Lemma second_missed_migration_not_named :
  ¬ @every_missed_migration_is_named release_versions.
Proof.
  intros H.
  destruct (H two_missed [] "0002_second" window_1_28) as (msg & Hout & Hmsg).
  - vm_compute; reflexivity.
  - by_compute.
  - vm_compute; reflexivity.
  - vm_compute in Hout. injection Hout as <-. vm_compute in Hmsg. discriminate.
Qed.

Lemma gate_returns_none_witness :
  init_special_migrations applicable_and_future []
    = ([new_record "0001_sample_by"], Ok PyNone) ∧
  [new_record "0001_sample_by"]
    = [] ++ map new_record
               (List.filter (lacks_record [])
                            (pending_applicable applicable_and_future [])).
Proof.
  assert (Hrun : init_special_migrations applicable_and_future []
                 = ([new_record "0001_sample_by"], Ok PyNone))
    by (vm_compute; reflexivity).
  split; [exact Hrun|].
  exact (proj2 (proj2 (gate_returns_none applicable_and_future [] _ _ Hrun))).
Defined.

(** C4, as worded, fails: one migration is pending-applicable and the call
    hands back [None], not the list of its name. *)
Lemma gate_hands_back_nothing : ¬ @gate_returns_pending_set release_versions.
Proof.
  intros H.
  specialize (H applicable_and_future [] [new_record "0001_sample_by"] PyNone).
  assert (Hrun : init_special_migrations applicable_and_future []
                 = ([new_record "0001_sample_by"], Ok PyNone))
    by (vm_compute; reflexivity).
  specialize (H Hrun). discriminate H.
Qed.

(** On [future_then_applicable] the applicable migration sorts after one
    that is skipped and gets its row; on [applicable_then_missed] it gets its
    row although the call raises for the migration behind it; on
    [applicable_and_future] the migration below its window is left alone. *)
Lemma applicable_gets_record_below_is_ignored_witness :
  record_ensured [] (fst (init_special_migrations future_then_applicable []))
                 "0002_sample_by" ∧
  record_ensured [] (fst (init_special_migrations applicable_then_missed []))
                 "0001_sample_by" ∧
  below_window (POSTHOG_VERSION applicable_and_future) window_1_40 = true ∧
  List.filter (has_name "0002_future")
              (fst (init_special_migrations applicable_and_future [])) = [] ∧
  gate_verdict applicable_and_future "0002_future" = Skip.
Proof.
  split; [|split; [|split; [vm_compute; reflexivity|]]].
  - refine (proj2 (proj1 (applicable_gets_record_below_is_ignored
                            future_then_applicable [] "0002_sample_by"
                            EventsSampleBy.Migration _ _) _ _)).
    + vm_compute; reflexivity.
    + by_compute.
    + vm_compute; reflexivity.
    + intros x Hx Hlt.
      assert (Hc : x ∈ ["0001_future"; "0002_sample_by"]).
      { apply sorted_elem_of in Hx. exact Hx. }
      apply elem_of_cons in Hc as [->|Hc]; [left; vm_compute; reflexivity|].
      apply elem_of_cons in Hc as [->|Hc]; [vm_compute in Hlt; discriminate|].
      destruct (proj1 (elem_of_nil x) Hc).
  - refine (proj2 (proj1 (applicable_gets_record_below_is_ignored
                            applicable_then_missed [] "0001_sample_by"
                            EventsSampleBy.Migration _ _) _ _)).
    + vm_compute; reflexivity.
    + by_compute.
    + vm_compute; reflexivity.
    + intros x Hx Hlt.
      assert (Hc : x ∈ ["0001_sample_by"; "0002_legacy"]).
      { apply sorted_elem_of in Hx. exact Hx. }
      apply elem_of_cons in Hc as [->|Hc]; [vm_compute in Hlt; discriminate|].
      apply elem_of_cons in Hc as [->|Hc]; [vm_compute in Hlt; discriminate|].
      destruct (proj1 (elem_of_nil x) Hc).
  - destruct (proj2 (applicable_gets_record_below_is_ignored
                       applicable_and_future [] "0002_future" window_1_40
                       ltac:(vm_compute; reflexivity) ltac:(by_compute))
                    ltac:(vm_compute; reflexivity) ltac:(vm_compute; reflexivity))
      as (Hrows & _ & Hskip).
    split; [exact Hrows|]. apply Hskip.
    right. eexists. vm_compute. reflexivity.
Defined.

(** C6, as worded, fails: a missed migration that sorts first stops the gate
    before the applicable one is reached, and no row is created for it. *)
Lemma applicable_migration_left_without_record :
  ¬ @applicable_or_ignored release_versions.
Proof.
  intros H.
  destruct (H missed_then_applicable [] "0002_sample_by" EventsSampleBy.Migration)
    as [Hin _].
  - vm_compute; reflexivity.
  - by_compute.
  - destruct Hin as [_ Hrec]; [vm_compute; reflexivity|].
    vm_compute in Hrec. discriminate Hrec.
Qed.

(** A definition with swapped bounds: the application version is below its
    [min] and yet the gate raises the fatal error for it. *)
Lemma swapped_bounds_are_fatal :
  below_window (POSTHOG_VERSION inverted_window)
               (mkDefinition "Bounds swapped." "1.40.0" "1.20.0" []) = true ∧
  init_special_migrations inverted_window []
    = ([], Raise (ImproperlyConfigured
                    (error_message "0001_inverted" (VERSION inverted_window)))).
Proof. split; vm_compute; reflexivity. Qed.

Lemma gate_noop_when_all_completed_witness :
  init_special_migrations two_missed
    [completed_record "0001_first"; completed_record "0002_second"]
  = ([completed_record "0001_first"; completed_record "0002_second"], Ok PyNone).
Proof.
  apply gate_noop_when_all_completed. by_compute.
Defined.

Lemma gate_exception_kinds_witness :
  ValueError = ValueError ∨ ValueError = MultipleObjectsReturned ∨
  ∃ n, n ∈ unapplied_migrations malformed_then_missed [] ∧
       ValueError = ImproperlyConfigured
                      (error_message n (VERSION malformed_then_missed)).
Proof.
  apply (gate_exception_kinds malformed_then_missed [] ValueError).
  vm_compute; reflexivity.
Defined.

Lemma gate_completes_iff_nothing_missed_witness :
  snd (init_special_migrations applicable_and_future []) = Ok PyNone ↔
  ∀ n m, n ∈ unapplied_migrations applicable_and_future [] →
         ALL_SPECIAL_MIGRATIONS applicable_and_future !! n = Some m →
         window_exceeded (POSTHOG_VERSION applicable_and_future) m = false.
Proof.
  apply (gate_completes_iff_nothing_missed applicable_and_future []).
  intros x Hx.
  assert (Hc : x ∈ ["0001_sample_by"; "0002_future"]).
  { apply sorted_elem_of in Hx. exact Hx. }
  apply elem_of_cons in Hc as [->|Hc];
    [apply iteration_clean_verdict; [vm_compute; discriminate|vm_compute; lia]|].
  apply elem_of_cons in Hc as [->|Hc];
    [apply iteration_clean_verdict; [vm_compute; discriminate|vm_compute; lia]|].
  destruct (proj1 (elem_of_nil x) Hc).
Defined.

Lemma gate_preserves_unique_names_witness :
  unique_names (fst (init_special_migrations applicable_then_missed
                       [new_record "0002_legacy"])).
Proof.
  apply gate_preserves_unique_names. by_compute.
Defined.

Lemma gate_ignores_foreign_records_witness :
  ∃ added out,
    init_special_migrations applicable_then_missed [] = ([] ++ added, out) ∧
    init_special_migrations applicable_then_missed ([] ++ [completed_record "0000_gone"])
    = (([] ++ [completed_record "0000_gone"]) ++ added, out).
Proof.
  apply (gate_ignores_foreign_records applicable_then_missed []
           (completed_record "0000_gone")).
  by_compute.
Defined.

Lemma gate_completes_at_lower_version_witness :
  snd (init_special_migrations nothing_applicable_yet []) = Ok PyNone.
Proof.
  apply (gate_completes_at_lower_version applicable_and_future
           nothing_applicable_yet []).
  - reflexivity.
  - intros hi Hhi.
    apply (release_gt_trans (mkVersion 1 30 0) (mkVersion 1 20 0) hi);
      [vm_compute; reflexivity|exact Hhi].
  - intros x Hx.
    assert (Hc : x ∈ ["0001_sample_by"; "0002_future"]).
    { apply sorted_elem_of in Hx. exact Hx. }
    apply elem_of_cons in Hc as [->|Hc];
      [apply iteration_clean_verdict; [vm_compute; discriminate|vm_compute; lia]|].
    apply elem_of_cons in Hc as [->|Hc];
      [apply iteration_clean_verdict; [vm_compute; discriminate|vm_compute; lia]|].
    destruct (proj1 (elem_of_nil x) Hc).
  - vm_compute; reflexivity.
Defined.

(** ** The registry *)

Lemma load_registry_snoc DEBUG items n d :
  load_registry DEBUG (items ++ [(n, d)])
  = if registered DEBUG n
    then <[n := d]> (load_registry DEBUG items)
    else load_registry DEBUG items.
Proof. unfold load_registry. by rewrite foldl_app. Qed.

Lemma load_registry_lookup DEBUG items n d :
  load_registry DEBUG items !! n = Some d →
  (n, d) ∈ items ∧ registered DEBUG n = true.
Proof.
  induction items as [|[n' d'] items IH] using rev_ind.
  - unfold load_registry. simpl. by rewrite lookup_empty.
  - rewrite load_registry_snoc. destruct (registered DEBUG n') eqn:Hreg.
    + destruct (decide (n' = n)) as [->|Hne].
      * rewrite lookup_insert_eq. intros [= ->]. split; [|done].
        apply elem_of_app. right. by left.
      * rewrite lookup_insert_ne by done. intros [??]%IH. split; [|done].
        apply elem_of_app. by left.
    + intros [??]%IH. split; [|done]. apply elem_of_app. by left.
Qed.





(** ** Further properties of the registry *)

(** X1. The keys of the registry are the listed names, without "example"
    unless DEBUG is set. *)
Theorem registry_keys
    (DEBUG : bool) (submodules : list (string * SpecialMigrationDefinition))
    (n : string) :
  n ∈ dom (load_registry DEBUG submodules) ↔
  n ∈ submodules.*1 ∧ (n ≠ "example" ∨ DEBUG = true).
Proof.
  assert (Hreg : ∀ x, registered DEBUG x = true ↔ x ≠ "example" ∨ DEBUG = true).
  { intros x. unfold registered. rewrite orb_true_iff, negb_true_iff.
    by rewrite String.eqb_neq. }
  induction submodules as [|[n' d'] items IH] using rev_ind.
  - unfold load_registry. simpl. rewrite dom_empty_L. set_solver.
  - rewrite load_registry_snoc, fmap_app, elem_of_app. simpl.
    destruct (registered DEBUG n') eqn:Hn'.
    + rewrite dom_insert_L, elem_of_union, elem_of_singleton, IH.
      rewrite list_elem_of_singleton. apply Hreg in Hn'.
      split; [intros [->|[? ?]]|intros [[?| ->] ?]]; auto.
    + rewrite IH, list_elem_of_singleton.
      split; [intros [? ?]; auto|intros [[?| ->] Hx]; [done|]].
      apply Hreg in Hx. congruence.
Qed.

(** X2. Outside DEBUG the registry is the DEBUG registry with "example"
    removed: every other name keeps the definition it has under DEBUG. *)
Theorem registry_without_debug
    (submodules : list (string * SpecialMigrationDefinition)) :
  load_registry false submodules = delete "example" (load_registry true submodules).
Proof.
  induction submodules as [|[n d] items IH] using rev_ind.
  - unfold load_registry. simpl. by rewrite delete_empty.
  - rewrite !load_registry_snoc. unfold registered. rewrite orb_true_r, orb_false_r.
    destruct (String.eqb_spec n "example") as [->|Hne]; simpl.
    + by rewrite IH, delete_insert_eq.
    + by rewrite IH, delete_insert_ne.
Qed.

(** X18. Outside DEBUG the example migration is never gated: whatever the
    submodules, versions and table, the gate creates no row for "example"
    and raises no fatal error for it. *)
Theorem example_is_never_gated `{VersionLibrary}
    (submodules : list (string * SpecialMigrationDefinition))
    (version : string) (v : Version) (db : store) :
  let M := mkManager _ (load_registry false submodules) version v in
  List.filter (has_name "example") (fst (init_special_migrations M db))
  = List.filter (has_name "example") db ∧
  snd (init_special_migrations M db)
  ≠ Raise (ImproperlyConfigured (error_message "example" version)).
Proof.
  intros M.
  assert (Hex : "example" ∉ unapplied_migrations M db).
  { unfold unapplied_migrations. simpl.
    rewrite elem_of_difference, elem_of_dom.
    intros [[d Hd] _]. apply load_registry_lookup in Hd as [_ Hd]. done. }
  destruct (init_special_migrations M db) as [db' out] eqn:Hrun. simpl.
  split.
  - unfold init_special_migrations in Hrun.
    eapply gate_loop_other; [apply sorted_NoDup|exact Hrun|].
    by rewrite sorted_elem_of.
  - intros ->.
    destruct (gate_loop_fatal _ _ _ _ Hrun)
      as (done & n & rest & m & Hl & _ & _ & Hmsg & _ & _).
    apply error_message_inj in Hmsg as <-.
    apply Hex, sorted_elem_of. rewrite Hl. apply elem_of_app. right. by left.
Qed.

(** ** The record table: [get_or_create] *)

(** X8. [get_or_create] followed by [get_or_create]: after a successful
    call the table holds exactly one row of that name, the row returned, and
    asking again returns the same row without creating anything; a row is
    created exactly when no row of that name existed. *)
Theorem get_or_create_again
    (db db' : store) (n : string) (r : SpecialMigration) (created : bool) :
  get_or_create db n = Ok (db', r, created) →
  get_or_create db' n = Ok (db', r, false) ∧
  name r = n ∧
  List.filter (has_name n) db' = [r] ∧
  (created = true ↔ n ∉ names_of db) ∧
  (created = false → db' = db).
Proof.
  intros Hget. pose proof (get_or_create_Ok _ _ _ _ _ Hget) as [Hdb' Hr].
  split; [by apply get_or_create_found|]. split.
  { apply (filter_has_name_elem db' n). rewrite Hr. by left. }
  split; [done|].
  unfold get_or_create in Hget.
  destruct (List.filter (has_name n) db) as [|r0 [|]] eqn:E; [| |done].
  - injection Hget as <- <- <-. apply filter_has_name_nil in E.
    split; [done|]. by intros.
  - injection Hget as <- <- <-. split; [|done]. split; [done|].
    intros Hn. apply filter_has_name_nil in Hn. congruence.
Qed.

Lemma get_or_create_again_witness :
  get_or_create [new_record "0001_first"] "0001_first"
  = Ok ([new_record "0001_first"], new_record "0001_first", false).
Proof.
  apply (get_or_create_again [] [new_record "0001_first"] "0001_first"
           (new_record "0001_first") true).
  reflexivity.
Defined.

(** ** Binary64 arithmetic

    The sign and the range of a rounded result, read off the rounding
    function of the floating-point specification. *)

Lemma shr_1_nonneg mrs : (0 ≤ shr_m mrs)%Z → (0 ≤ shr_m (shr_1 mrs))%Z.
Proof. destruct mrs as [[|[p|p|]|p] r s]; simpl; lia. Qed.

Lemma iter_pos_shr_1_nonneg p : ∀ mrs,
  (0 ≤ shr_m mrs)%Z → (0 ≤ shr_m (SpecFloat.iter_pos shr_1 p mrs))%Z.
Proof.
  induction p as [p IH|p IH|]; intros mrs Hm; simpl.
  - by apply IH, IH, shr_1_nonneg.
  - by apply IH, IH.
  - by apply shr_1_nonneg.
Qed.

Lemma shr_fexp_nonneg prec emax m e l :
  (0 ≤ m)%Z → (0 ≤ shr_m (fst (shr_fexp prec emax m e l)))%Z.
Proof.
  intros Hm. unfold shr_fexp, shr.
  assert (H0 : (0 ≤ shr_m (shr_record_of_loc m l))%Z) by (by destruct l as [|[]]).
  destruct (_ - e)%Z; simpl; [done| |done]. by apply iter_pos_shr_1_nonneg.
Qed.

Lemma round_nearest_even_nonneg m l :
  (0 ≤ m)%Z → (0 ≤ round_nearest_even m l)%Z.
Proof.
  intros Hm. destruct l as [|[]]; simpl; try lia. destruct (Z.even m); lia.
Qed.

Lemma binary_round_aux_signed prec emax sx mx ex lx :
  (0 ≤ mx)%Z → signed sx (binary_round_aux prec emax sx mx ex lx).
Proof.
  intros Hm. unfold binary_round_aux.
  pose proof (shr_fexp_nonneg prec emax mx ex lx Hm) as H1.
  destruct (shr_fexp prec emax mx ex lx) as [mrs' e']. simpl in H1.
  pose proof (shr_fexp_nonneg prec emax _ e' loc_Exact
                (round_nearest_even_nonneg _ (loc_of_shr_record mrs') H1)) as H2.
  destruct (shr_fexp prec emax _ e' loc_Exact) as [mrs'' e'']. simpl in H2.
  unfold signed. destruct (shr_m mrs'') as [|m|m]; [by left| |lia].
  destruct (_ <=? _)%Z; [right; left; eauto|by right; right].
Qed.

Lemma Float64_of_N_signed n : signed false (Float64_of_N n).
Proof.
  unfold Float64_of_N, binary_normalize.
  destruct n as [|p]; simpl; [by left|].
  unfold binary_round. destruct (shl_align _ _ _) as [mz ez].
  by apply binary_round_aux_signed.
Qed.

Lemma SFdiv_finite_signed prec emax mx ex my ey :
  signed false (SFdiv prec emax (S754_finite false mx ex) (S754_finite false my ey)).
Proof.
  simpl. unfold SFdiv_core_binary.
  set (m' := match (ex - ey - _)%Z with Z.pos _ => _ | 0%Z => _ | Z.neg _ => _ end).
  assert (Hm' : (0 ≤ m')%Z).
  { subst m'. destruct (ex - ey - _)%Z; [lia| |lia].
    apply Z.shiftl_nonneg. lia. }
  pose proof (Z_div_mod m' (Z.pos my) ltac:(lia)) as Hdiv.
  destruct (Z.div_eucl m' (Z.pos my)) as [q r].
  apply binary_round_aux_signed. nia.
Qed.

(** *** The exponent after rounding *)

Lemma digits2_pos_size p : digits2_pos p = Pos.size p.
Proof. induction p; simpl; congruence. Qed.

Lemma Zdigits2_log2 m : (0 < m)%Z → Zdigits2 m = (Z.log2 m + 1)%Z.
Proof.
  destruct m as [|p|p]; [lia| |lia]. intros _. simpl.
  destruct p; simpl; rewrite ?digits2_pos_size; lia.
Qed.

Lemma Zdigits2_nonneg m : (0 ≤ Zdigits2 m)%Z.
Proof. destruct m; simpl; lia. Qed.

Lemma Zdigits2_mono a b : (0 ≤ a ≤ b)%Z → (Zdigits2 a ≤ Zdigits2 b)%Z.
Proof.
  intros [Ha Hab]. destruct (decide (a = 0%Z)) as [->|Hne].
  - apply Zdigits2_nonneg.
  - rewrite !Zdigits2_log2 by lia.
    pose proof (Z.log2_le_mono a b Hab). lia.
Qed.

Lemma Zdigits2_succ m : (0 ≤ m)%Z → (Zdigits2 (m + 1) ≤ Zdigits2 m + 1)%Z.
Proof.
  intros Hm. destruct (decide (m = 0%Z)) as [->|Hne]; [simpl; lia|].
  rewrite !Zdigits2_log2 by lia.
  pose proof (Z.log2_succ_le m) as Hs. rewrite <- Z.add_1_r in Hs. lia.
Qed.

Lemma Zdigits2_shiftl m s :
  (0 < m)%Z → (0 ≤ s)%Z → Zdigits2 (Z.shiftl m s) = (Zdigits2 m + s)%Z.
Proof.
  intros Hm Hs.
  assert (0 < Z.shiftl m s)%Z.
  { rewrite Z.shiftl_mul_pow2 by lia. apply Z.mul_pos_pos; [lia|].
    apply Z.pow_pos_nonneg; lia. }
  rewrite !Zdigits2_log2 by lia. rewrite Z.log2_shiftl by lia. lia.
Qed.

Lemma shr_1_digits mrs :
  (0 ≤ shr_m mrs)%Z →
  (Zdigits2 (shr_m (shr_1 mrs)) ≤ Z.max (Zdigits2 (shr_m mrs) - 1) 0)%Z.
Proof. destruct mrs as [[|[p|p|]|p] r s]; simpl; lia. Qed.

Lemma iter_pos_shr_1_digits p : ∀ mrs,
  (0 ≤ shr_m mrs)%Z →
  (Zdigits2 (shr_m (SpecFloat.iter_pos shr_1 p mrs))
   ≤ Z.max (Zdigits2 (shr_m mrs) - Z.pos p) 0)%Z.
Proof.
  induction p as [p IH|p IH|]; intros mrs Hm; simpl.
  - pose proof (shr_1_nonneg _ Hm) as H1. pose proof (shr_1_digits _ Hm) as D1.
    pose proof (iter_pos_shr_1_nonneg p _ H1) as H2.
    pose proof (IH _ H1) as D2. pose proof (IH _ H2) as D3. lia.
  - pose proof (iter_pos_shr_1_nonneg p _ Hm) as H2.
    pose proof (IH _ Hm) as D2. pose proof (IH _ H2) as D3. lia.
  - by apply shr_1_digits.
Qed.

(** One shift to the canonical exponent: the exponent it reaches and the
    size of what is left of the mantissa. *)
Lemma shr_fexp_bounds m e l :
  (0 ≤ m)%Z →
  let '(mrs, e1) := shr_fexp prec64 emax64 m e l in
  (0 ≤ shr_m mrs)%Z ∧
  (e1 ≤ Z.max e (fexp prec64 emax64 (Zdigits2 m + e)))%Z ∧
  (Zdigits2 (shr_m mrs) + e1 ≤ Z.max (Zdigits2 m + e) e1)%Z.
Proof.
  intros Hm. unfold shr_fexp, shr.
  assert (H0 : shr_m (shr_record_of_loc m l) = m) by (by destruct l as [|[]]).
  destruct (fexp prec64 emax64 (Zdigits2 m + e) - e)%Z as [|p|p] eqn:En.
  - rewrite H0. lia.
  - pose proof (iter_pos_shr_1_nonneg p (shr_record_of_loc m l)) as H1.
    pose proof (iter_pos_shr_1_digits p (shr_record_of_loc m l)) as H2.
    rewrite H0 in H1, H2. specialize (H1 Hm). specialize (H2 Hm). lia.
  - rewrite H0. lia.
Qed.

(** Rounding stays in range when the number is below 2^1023. *)
Lemma binary_round_aux_in_range sx m e l s :
  (0 ≤ m)%Z → (e ≤ 971)%Z → (Zdigits2 m + e ≤ 1023)%Z →
  binary_round_aux prec64 emax64 sx m e l ≠ S754_infinity s.
Proof.
  intros Hm He Hd. unfold binary_round_aux.
  pose proof (shr_fexp_bounds m e l Hm) as H1.
  destruct (shr_fexp prec64 emax64 m e l) as [mrs' e'].
  destruct H1 as (Hm1 & He1 & Hd1).
  pose proof (round_nearest_even_nonneg _ (loc_of_shr_record mrs') Hm1) as Hr.
  assert (Hr' : (round_nearest_even (shr_m mrs') (loc_of_shr_record mrs')
                 ≤ shr_m mrs' + 1)%Z).
  { destruct (loc_of_shr_record mrs') as [|[]]; simpl; try lia.
    destruct (Z.even _); lia. }
  pose proof (Zdigits2_mono _ _ (conj Hr Hr')) as Hd2.
  pose proof (Zdigits2_succ _ Hm1) as Hd3.
  pose proof (shr_fexp_bounds _ e' loc_Exact Hr) as H2.
  destruct (shr_fexp prec64 emax64 _ e' loc_Exact) as [mrs'' e''].
  destruct H2 as (Hm2 & He2 & _).
  unfold fexp, emin, prec64, emax64 in *.
  destruct (shr_m mrs''); [done| |done].
  destruct (Z.leb_spec e'' (1024 - 53)); [done|lia].
Qed.

Lemma SFdiv_integers_in_range (mx my : positive) s :
  (Z.pos mx < 2 ^ 1023)%Z →
  SFdiv prec64 emax64 (S754_finite false mx 0) (S754_finite false my 0)
  ≠ S754_infinity s.
Proof.
  intros Hmx. simpl. unfold SFdiv_core_binary.
  set (d1 := Zdigits2 (Z.pos mx)). set (d2 := Zdigits2 (Z.pos my)).
  set (e' := Z.min (fexp prec64 emax64 (d1 + 0 - (d2 + 0))) (0 - 0)).
  assert (Hd1 : (d1 ≤ 1023)%Z).
  { subst d1. rewrite Zdigits2_log2 by lia.
    assert (Z.log2 (Z.pos mx) < 1023)%Z; [|lia].
    apply Z.log2_lt_pow2; lia. }
  assert (He' : (e' ≤ 0)%Z) by (subst e'; lia).
  set (m' := match (0 - 0 - e')%Z with Z.pos _ => _ | 0%Z => _ | Z.neg _ => _ end).
  assert (Hm' : (0 ≤ m')%Z ∧ (Zdigits2 m' + e' ≤ d1)%Z).
  { subst m'. destruct (0 - 0 - e')%Z as [|p|p] eqn:Es; [| |lia].
    - fold d1. lia.
    - split; [apply Z.shiftl_nonneg; lia|].
      rewrite Zdigits2_shiftl by lia. fold d1. lia. }
  destruct Hm' as [Hm' Hdm'].
  pose proof (Z_div_mod m' (Z.pos my) ltac:(lia)) as Hdiv.
  destruct (Z.div_eucl m' (Z.pos my)) as [q r].
  assert (Hq : (0 ≤ q ≤ m')%Z) by nia.
  pose proof (Zdigits2_mono _ _ Hq) as Hdq.
  apply binary_round_aux_in_range; lia.
Qed.


(** Python's integer division, for a divisor that is not zero and a dividend
    below 2^1023: the quotient is a float, neither negative nor infinite. *)
Lemma py_truediv_in_range (a b : N) :
  (0 < b)%N → (a < 2 ^ 1023)%N →
  py_truediv a b
  = Ok (SFdiv prec64 emax64 (int_as_float a) (int_as_float b)) ∧
  (SFdiv prec64 emax64 (int_as_float a) (int_as_float b) = S754_zero false ∨
   ∃ m e, SFdiv prec64 emax64 (int_as_float a) (int_as_float b)
          = S754_finite false m e).
Proof.
  intros Hb Ha. unfold py_truediv.
  destruct (N.eqb_spec b 0) as [->|_]; [lia|].
  destruct b as [|my]; [lia|]. destruct a as [|mx]; [split; [done|by left]|].
  unfold int_as_float.
  assert (Hmx : (Z.pos mx < 2 ^ 1023)%Z).
  { change (Z.pos mx) with (Z.of_N (N.pos mx)).
    change (2 ^ 1023)%Z with (Z.of_N (2 ^ 1023)). lia. }
  pose proof (SFdiv_finite_signed prec64 emax64 mx 0 my 0) as Hs.
  pose proof (SFdiv_integers_in_range mx my false Hmx) as Hr.
  destruct Hs as [Hs|[(m & e & Hs)|Hs]]; [| |done].
  - rewrite Hs. split; [done|by left].
  - rewrite Hs. split; [done|right; eauto].
Qed.


(** Dividing by a table of no bytes gives infinity or NaN, and neither is
    below 1.5. *)
Lemma ch_div_zero (a : N) : float_lt (ch_div a 0) float64_1_5 = false.
Proof.
  unfold ch_div. change (Float64_of_N 0) with (S754_zero false).
  by destruct (Float64_of_N_signed a) as [->|[(m & e & ->)| ->]].
Qed.

(** ** The events-sample-by migration *)

Lemma count_rows_lookup ch t n : tables ch !! t = Some n → count_rows ch t = Ok n.
Proof. unfold count_rows. by intros ->. Qed.

(** What [healthcheck] does, read off the first disk called default. *)
Lemma healthcheck_cases (formatReadableSize : spec_float → string) (ch : ClickHouse) :
  match disks_named ch "default" with
  | [] => EventsSampleBy.healthcheck formatReadableSize ch = Raise IndexError
  | d :: _ =>
      let size := table_size ch "sharded_events" in
      EventsSampleBy.healthcheck formatReadableSize ch
      = if float_lt (ch_div (free_space d) size) float64_1_5
        then Ok (true, None)
        else Ok (false,
                 Some (EventsSampleBy.storage_message
                         (formatReadableSize
                            (EventsSampleBy.required_bytes d size))))
  end.
Proof.
  unfold EventsSampleBy.healthcheck, EventsSampleBy.free_to_events_ratio,
    EventsSampleBy.required_storage.
  by destruct (disks_named ch "default") as [|d rest].
Qed.

(** C3: the source check runs the wrong way round.  With 300 bytes free and
    an events table of 100 bytes (twice the one and a half times asked for)
    [healthcheck] answers not ok with the storage message, for 850 bytes;
    with only 100 bytes free it answers ok with no detail. *)
Theorem healthcheck_rejects_ample_disk (formatReadableSize : spec_float → string) :
  (3 * table_size ample_disk "sharded_events" ≤ 2 * 300)%N ∧
  EventsSampleBy.healthcheck formatReadableSize ample_disk
  = Ok (false,
        Some (EventsSampleBy.storage_message
                (formatReadableSize (Float64_of_N 850)))) ∧
  ¬ (3 * table_size scarce_disk "sharded_events" ≤ 2 * 100)%N ∧
  EventsSampleBy.healthcheck formatReadableSize scarce_disk = Ok (true, None).
Proof.
  split; [by vm_compute|]. split; [by vm_compute|].
  split; [|by vm_compute]. intros H. vm_compute in H. by apply H.
Qed.




(** ** Further properties of the events-sample-by migration *)

(** X10. Every outcome of [progress]: it returns a float, a hundred times
    the rounded quotient of the two counts, only when both tables exist and
    the events table is not empty; it fails with the server's exception when
    the temporary or the events table is missing (before the first operation
    and after the rename), with ZeroDivisionError when both exist and the
    events table is empty, and with OverflowError only for a count of 2^1023
    or more in the temporary table, which no 64-bit count reaches. *)
Theorem progress_outcomes
    (EVENTS_TABLE : string) (ch : ClickHouse) (record : SpecialMigration) :
  match EventsSampleBy.progress EVENTS_TABLE ch record with
  | Ok p =>
      ∃ moved total,
        tables ch !! EventsSampleBy.TEMPORARY_TABLE_NAME = Some moved ∧
        tables ch !! EVENTS_TABLE = Some total ∧ total ≠ 0%N ∧
        p = SFmul prec64 emax64 float64_100
              (SFdiv prec64 emax64 (int_as_float moved) (int_as_float total))
  | Raise e =>
      (e = ServerException ∧
       (tables ch !! EventsSampleBy.TEMPORARY_TABLE_NAME = None ∨
        tables ch !! EVENTS_TABLE = None)) ∨
      (e = ZeroDivisionError ∧
       is_Some (tables ch !! EventsSampleBy.TEMPORARY_TABLE_NAME) ∧
       tables ch !! EVENTS_TABLE = Some 0%N) ∨
      (e = OverflowError ∧
       ∃ moved, tables ch !! EventsSampleBy.TEMPORARY_TABLE_NAME = Some moved ∧
                (2 ^ 1023 ≤ moved)%N)
  end.
Proof.
  unfold EventsSampleBy.progress, count_rows.
  destruct (tables ch !! EventsSampleBy.TEMPORARY_TABLE_NAME) as [moved|];
    [|left; auto].
  destruct (tables ch !! EVENTS_TABLE) as [total|]; [|left; auto].
  destruct (N.eqb_spec total 0) as [->|Hne].
  - right. left. eauto.
  - destruct (N.lt_ge_cases moved (2 ^ 1023)) as [Hlt|Hge].
    + destruct (py_truediv_in_range moved total ltac:(lia) Hlt) as [-> _].
      by exists moved, total.
    + unfold py_truediv. destruct (N.eqb_spec total 0) as [|_]; [done|].
      destruct (SFdiv _ _ _ _) eqn:Hq;
        try (exists moved, total; by rewrite ?Hq);
        right; right; eauto.
Qed.

(** X12. Before any row is copied the progress is 0.0: with an empty
    temporary table and an events table that is not empty, [progress]
    returns positive zero. *)
Theorem progress_zero_when_nothing_copied
    (EVENTS_TABLE : string) (ch : ClickHouse) (record : SpecialMigration)
    (total : N) :
  tables ch !! EventsSampleBy.TEMPORARY_TABLE_NAME = Some 0%N →
  tables ch !! EVENTS_TABLE = Some total →
  (0 < total)%N →
  EventsSampleBy.progress EVENTS_TABLE ch record = Ok (S754_zero false).
Proof.
  intros Hmoved Htotal Hpos. unfold EventsSampleBy.progress.
  rewrite (count_rows_lookup _ _ _ Hmoved), (count_rows_lookup _ _ _ Htotal).
  unfold py_truediv. destruct (N.eqb_spec total 0) as [|_]; [lia|].
  by destruct total.
Qed.

Lemma progress_zero_when_nothing_copied_witness :
  EventsSampleBy.progress "events"
    (mkClickHouse (<["events" := 2%N]> (<["temp_events" := 0%N]> ∅)) [] [])
    (new_record "x")
  = Ok (S754_zero false).
Proof.
  apply (progress_zero_when_nothing_copied "events" _ (new_record "x") 2).
  - vm_compute; reflexivity.
  - vm_compute; reflexivity.
  - lia.
Defined.


(** X14. With an empty events table [healthcheck] never answers ok: the
    ratio is infinite or undefined, the comparison fails, and the answer is
    not ok with the storage message, however much space is free. *)
Theorem healthcheck_refuses_empty_table
    (formatReadableSize : spec_float → string) (ch : ClickHouse) (d : disk) rest :
  disks_named ch "default" = d :: rest →
  table_size ch "sharded_events" = 0%N →
  ∃ required_space,
    EventsSampleBy.healthcheck formatReadableSize ch
    = Ok (false, Some (EventsSampleBy.storage_message required_space)).
Proof.
  intros Hd Hsize.
  pose proof (healthcheck_cases formatReadableSize ch) as H.
  rewrite Hd in H. simpl in H. rewrite Hsize, ch_div_zero in H. eauto.
Qed.

Lemma healthcheck_refuses_empty_table_witness :
  ∃ required_space,
    EventsSampleBy.healthcheck (fun _ => "0.00 B") no_events_parts
    = Ok (false, Some (EventsSampleBy.storage_message required_space)).
Proof.
  apply (healthcheck_refuses_empty_table (fun _ => "0.00 B") no_events_parts
           (mkDisk "default" 1000 1000) []); reflexivity.
Defined.

(** X15. Every outcome of [is_required]: when the events table is missing
    the server's exception passes through; otherwise it answers, and the
    answer is True exactly when the table's create statement contains the
    text "SAMPLE BY uuid". *)
Theorem is_required_outcomes (EVENTS_TABLE : string) (ddl : gmap string string) :
  match ddl !! EVENTS_TABLE with
  | None => EventsSampleBy.is_required EVENTS_TABLE ddl = Raise ServerException
  | Some statement =>
      ∃ b, EventsSampleBy.is_required EVENTS_TABLE ddl = Ok b ∧
           (b = true ↔ ∃ p s, statement = p +:+ "SAMPLE BY uuid" +:+ s)
  end.
Proof.
  unfold EventsSampleBy.is_required, EventsSampleBy.show_create_table.
  destruct (ddl !! EVENTS_TABLE) as [statement|]; [|done].
  eexists. split; [done|]. apply mentions_spec.
Qed.
